(** * Windowed rendering hooks: a shallow embedding of [hooks/useVirtualization.js]

    The hooks [useVirtualization], [useInfiniteVirtualization],
    [useGridVirtualization] and [useMasonryVirtualization] are embedded as
    functions of their options and of the React state they keep
    ([scrollTop], the [heights] map, [positions]).  Every [useMemo] is a pure
    function of its dependency list, every [useEffect] a function of its
    dependencies on the state it writes.

    Numbers.  Pixel values, counts and indices are modelled as integers
    ([Z]), on which JavaScript's double arithmetic is exact up to 2^53.
    The values that integers cannot produce by [+], [-], [*] are kept
    apart: a division can yield an infinity or NaN ([num]), a missing
    property yields [undefined] (an [option]).

    The utilities of [utils/performance.js] that keep state across calls
    ([throttle], which the hooks use for [handleScroll], [debounce], the
    expiring cache, the resource preloader and the animation-frame loop)
    are embedded as step functions on that state, the host's timers and
    frames being events of a trace. *)

From stdpp Require Import gmap strings list fin_maps sorting.
From Stdlib Require Import ZArith Lia.

Local Open Scope Z_scope.

(** ** JavaScript values used by the hooks *)

Module JS.

(** A number that may come out of a division. *)
Inductive num : Type :=
| Fin (z : Z)
| PosInf
| NegInf
| NaN.

(** [Math.floor(a / b)] on integers [a], [b]. *)
Definition floor_div (a b : Z) : num :=
  if b =? 0 then
    if 0 <? a then PosInf else if a <? 0 then NegInf else NaN
  else Fin (a / b).

(** [v || d] where [v] is a number or [undefined]: [undefined] and [0]
    are falsy. *)
Definition or_else (v : option Z) (d : Z) : Z :=
  match v with
  | Some h => if h =? 0 then d else h
  | None => d
  end.

(** [l.reduce((sum, height) => sum + height, 0)] *)
Definition reduce_sum (l : list Z) : Z := foldl Z.add 0 l.

(** [l.slice(0, n)] for [n >= 0]. *)
Definition slice0 (l : list Z) (n : Z) : list Z := take (Z.to_nat n) l.

(** Exceptions the hooks can raise. *)
Inductive exn : Type :=
| ReferenceError (name : string)
| RangeError.

Inductive result (A : Type) : Type :=
| Ok (a : A)
| Throw (e : exn).
Arguments Ok {A} a.
Arguments Throw {A} e.

Definition bind {A B} (r : result A) (k : A -> result B) : result B :=
  match r with
  | Ok a => k a
  | Throw e => Throw e
  end.

End JS.

Notation "'let*' x ':=' r 'in' k" := (JS.bind r (fun x => k))
  (at level 10, x name, r at level 100, k at level 200).

(** ** [useVirtualization]: the single-column list *)

Module Virtualization.
Section Hook.
Context {Item : Type}.

(** The options object the hook destructures; [itemHeight] is [Some h]
    when [typeof itemHeight === 'number'], [getItemHeight] is [Some f]
    when it is truthy. *)
Record options : Type := Options {
  items : list Item;
  itemHeight : option Z;
  containerHeight : Z;
  overscan : Z;
  getItemHeight : option (Item -> nat -> Z);
  estimatedItemHeight : Z;
}.

(** The two [useState] cells. *)
Record state : Type := State {
  scrollTop : Z;
  heights : gmap nat Z;
}.

Definition initial : state := State 0 ∅.

Record range : Type := Range { start : Z; end_ : Z }.

Definition itemHeights (o : options) (hs : gmap nat Z) : list Z :=
  match itemHeight o with
  | Some h => (fun _ => h) <$> items o
  | None =>
      match getItemHeight o with
      | Some f => imap (fun index item => f item index) (items o)
      | None =>
          imap (fun index _ => JS.or_else (hs !! index) (estimatedItemHeight o))
               (items o)
      end
  end.

Definition totalHeight (ih : list Z) : Z := JS.reduce_sum ih.

(** First loop of [visibleRange]: [rest] is [itemHeights] from index [i]
    on; running off the end leaves [start] at its initial [0]. *)
Fixpoint find_start (scroll ov : Z) (rest : list Z) (i : nat) (acc : Z) : Z :=
  match rest with
  | [] => 0
  | h :: rest' =>
      if scroll <? acc + h then Z.max 0 (Z.of_nat i - ov)
      else find_start scroll ov rest' (S i) (acc + h)
  end.

(** Whether the first loop reaches its [break]. *)
Fixpoint breaks (scroll : Z) (rest : list Z) (acc : Z) : bool :=
  match rest with
  | [] => false
  | h :: rest' => (scroll <? acc + h) || breaks scroll rest' (acc + h)
  end.

(** Second loop: [e] is the current value of [end]. *)
Fixpoint find_end (limit : Z) (rest : list Z) (i : Z) (acc e : Z) : Z :=
  match rest with
  | [] => e
  | h :: rest' =>
      if limit <? acc then e
      else find_end limit rest' (i + 1) (acc + h) i
  end.

Definition visibleRange (o : options) (scroll : Z) (ih : list Z) : range :=
  let start := find_start scroll (overscan o) ih 0 0 in
  let acc := JS.reduce_sum (JS.slice0 ih start) in
  let limit := scroll + containerHeight o + overscan o * estimatedItemHeight o in
  let e := find_end limit (drop (Z.to_nat start) ih) start acc start in
  Range start (Z.min (e + overscan o) (Z.of_nat (length (items o)) - 1)).

Definition offsetY (ih : list Z) (r : range) : Z :=
  JS.reduce_sum (JS.slice0 ih (start r)).

(** [measureItem(index, element)]: [element] is [None] for a null ref,
    [Some h] for an element whose bounding rectangle has height [h]. *)
Definition measureItem (index : nat) (element : option Z) (st : state) : state :=
  match element with
  | None => st
  | Some height => State (scrollTop st) (<[index := height]> (heights st))
  end.

(** What one render of the hook returns (the derived values only). *)
Record view : Type := View {
  view_range : range;
  view_totalHeight : Z;
  view_offsetY : Z;
}.

Definition render (o : options) (st : state) : view :=
  let ih := itemHeights o (heights st) in
  let r := visibleRange o (scrollTop st) ih in
  View r (totalHeight ih) (offsetY ih r).

End Hook.
Arguments options : clear implicits.
End Virtualization.

(** ** [useInfiniteVirtualization]: the load-more effect *)

Module Infinite.

(** The dependency list of the effect.  [items_length] and
    [visibleRange_end] are [items.length] and [visibleRange.end];
    [fetchNextPage] is [None] when no callback was passed and [Some f],
    [f] naming the function object, otherwise. *)
Record deps : Type := Deps {
  hasNextPage : bool;
  isFetchingNextPage : bool;
  items_length : Z;
  visibleRange_end : Z;
  loadMoreThreshold : Z;
  fetchNextPage : option nat;
}.

#[global] Instance deps_eq_dec : EqDecision deps.
Proof. solve_decision. Defined.

Definition shouldLoadMore (d : deps) : bool :=
  hasNextPage d && negb (isFetchingNextPage d)
  && (items_length d - visibleRange_end d <=? loadMoreThreshold d).

(** The effect body, on the log of callback invocations. *)
Definition effect (d : deps) (calls : list nat) : list nat :=
  if shouldLoadMore d then
    match fetchNextPage d with
    | Some f => calls ++ [f]
    | None => calls
    end
  else calls.

(** React runs the body after the first render and after every render
    whose dependency list differs from the previous one. *)
Definition commit (prev : option deps) (d : deps) (calls : list nat) : list nat :=
  if decide (prev = Some d) then calls else effect d calls.

Fixpoint renders (prev : option deps) (ds : list deps) (calls : list nat) : list nat :=
  match ds with
  | [] => calls
  | d :: ds' => renders (Some d) ds' (commit prev d calls)
  end.

(** The dependency list of one render of the hook, the window coming
    from [useVirtualization]. *)
Definition deps_of {Item} (o : Virtualization.options Item)
    (st : Virtualization.state) (hasNext fetching : bool) (threshold : Z)
    (fetch : option nat) : deps :=
  Deps hasNext fetching (Z.of_nat (length (Virtualization.items o)))
       (Virtualization.end_ (Virtualization.view_range (Virtualization.render o st)))
       threshold fetch.

End Infinite.

(** ** [useGridVirtualization]: the column count of [gridDimensions] *)

Module Grid.

(** [columns || Math.floor((containerWidth + gap) / (itemWidth + gap))];
    [columns] is [None] when the option is not passed. *)
Definition cols (columns : option Z) (containerWidth itemWidth gap : Z) : JS.num :=
  match columns with
  | Some c =>
      if c =? 0 then JS.floor_div (containerWidth + gap) (itemWidth + gap)
      else JS.Fin c
  | None => JS.floor_div (containerWidth + gap) (itemWidth + gap)
  end.

End Grid.

(** ** [useMasonryVirtualization] *)

Module Masonry.
Section Hook.
Context {Item : Type}.

(** An entry of [positions].  [pos_y] is [None] when [y] is not a usable
    number ([undefined] or NaN): both are falsy, differ from [0], and
    turn every sum and maximum they enter into NaN. *)
Record position : Type := Position {
  pos_x : Z;
  pos_y : option Z;
  pos_height : Z;
}.

Definition columns (containerWidth columnWidth gap : Z) : JS.num :=
  JS.floor_div (containerWidth + gap) (columnWidth + gap).

(** [new Array(n).fill(0)] *)
Definition new_Array_fill0 (n : JS.num) : JS.result (list Z) :=
  match n with
  | JS.Fin z =>
      if (0 <=? z) && (z <? 2 ^ 32) then JS.Ok (replicate (Z.to_nat z) 0)
      else JS.Throw JS.RangeError
  | _ => JS.Throw JS.RangeError
  end.

(** [Math.min(...l)]: [Infinity] on no arguments. *)
Definition Math_min (l : list Z) : JS.num :=
  match l with
  | [] => JS.PosInf
  | h :: t => JS.Fin (foldl Z.min h t)
  end.

(** [l.indexOf(v)], [-1] when absent; [i] is the index of the head. *)
Fixpoint indexOf_from (l : list Z) (v : Z) (i : Z) : Z :=
  match l with
  | [] => -1
  | h :: t => if h =? v then i else indexOf_from t v (i + 1)
  end.

Definition indexOf (l : list Z) (v : JS.num) : Z :=
  match v with
  | JS.Fin z => indexOf_from l z 0
  | _ => -1
  end.

(** [l[i]] for an integer [i]: [undefined] outside the array. *)
Definition get (l : list Z) (i : Z) : option Z :=
  if i <? 0 then None else l !! Z.to_nat i.

(** [l[i] += d]: at a negative [i] the write lands on a property that is
    not an element, and the array is unchanged. *)
Definition add_at (l : list Z) (i : Z) (d : Z) : list Z :=
  if i <? 0 then l
  else match l !! Z.to_nat i with
       | Some v => <[Z.to_nat i := v + d]> l
       | None => l
       end.

(** The body of the [forEach] callback, for an item of height [height]. *)
Definition place (columnWidth gap : Z) (columnHeights : list Z) (height : Z)
  : position * list Z :=
  let shortestColumnIndex := indexOf columnHeights (Math_min columnHeights) in
  let x := shortestColumnIndex * (columnWidth + gap) in
  let y := get columnHeights shortestColumnIndex in
  (Position x y height, add_at columnHeights shortestColumnIndex (height + gap)).

Fixpoint pack (columnWidth gap : Z) (getItemHeight : Item -> nat -> Z)
    (rest : list Item) (index : nat) (columnHeights : list Z) : list position :=
  match rest with
  | [] => []
  | item :: rest' =>
      let '(p, columnHeights') :=
        place columnWidth gap columnHeights (getItemHeight item index) in
      p :: pack columnWidth gap getItemHeight rest' (S index) columnHeights'
  end.

(** The positions effect: the value handed to [setPositions]. *)
Definition positions (items : list Item) (cols : JS.num) (columnWidth gap : Z)
    (getItemHeight : Item -> nat -> Z) : JS.result (list position) :=
  let* columnHeights := new_Array_fill0 cols in
  JS.Ok (pack columnWidth gap getItemHeight items 0%nat columnHeights).

(** [pos.y + pos.height] *)
Definition bottom (p : position) : option Z :=
  (fun y => y + pos_height p) <$> pos_y p.

(** [totalHeight]; [None] is NaN. *)
Definition totalHeight (ps : list position) : option Z :=
  match ps with
  | [] => Some 0
  | p :: ps' =>
      foldl (fun acc q => a ← acc; b ← bottom q; Some (Z.max a b)) (bottom p) ps'
  end.

(** The filter callback of [visibleItems]; [p] is [positions[index]]. *)
Definition in_window (scrollTop containerBottom overscan : Z)
    (p : option position) : bool :=
  match p with
  | None => false
  | Some q =>
      match pos_y q with
      | None => false
      | Some itemTop =>
          let itemBottom := itemTop + pos_height q in
          (scrollTop - overscan * 100 <=? itemBottom)
          && (itemTop <=? containerBottom + overscan * 100)
      end
  end.

(** The identifiers bound inside [useMasonryVirtualization]: the
    destructured options, the local [const]s and the module's imports. *)
Definition scope : list string :=
  ["items"; "columnWidth"; "containerWidth"; "getItemHeight"; "gap";
   "overscan"; "scrollTop"; "setScrollTop"; "positions"; "setPositions";
   "scrollElementRef"; "columns"; "totalHeight"; "visibleItems";
   "handleScroll"; "useState"; "useEffect"; "useMemo"; "useCallback";
   "useRef"; "throttle"].

(** Reading an identifier that no enclosing scope binds: the global
    object decides, and an unresolvable reference throws. *)
Definition free_variable (globals : gmap string Z) (name : string) : JS.result Z :=
  match globals !! name with
  | Some v => JS.Ok v
  | None => JS.Throw (JS.ReferenceError name)
  end.

(** [visibleItems].  [containerHeight] is not among the hook's options
    (see [scope]); the memo's first statement, and its dependency list,
    read it as a free variable. *)
Definition visibleItems (globals : gmap string Z) (items : list Item)
    (ps : list position) (scrollTop overscan : Z)
  : JS.result (list (nat * Item * option position)) :=
  let* containerHeight := free_variable globals "containerHeight" in
  let containerBottom := scrollTop + containerHeight in
  JS.Ok (filter (fun e => in_window scrollTop containerBottom overscan e.2 = true)
                (imap (fun index item => (index, item, ps !! index)) items)).

End Hook.
End Masonry.

(** ** Scenarios and the specification's readings *)

Module Scenario.
Import Virtualization.

(** 1000 items of height 50 in a viewport of 500, overscan 5. *)
Definition uniform_list : options unit :=
  Options (replicate 1000 tt) (Some 50) 500 5 None 50.

(** One item, a configured height and a different measurement. *)
Definition configured_and_measured : options unit :=
  Options [tt] (Some 50) 500 5 None 50.

(** One item with a negative configured height. *)
Definition negative_height : options unit :=
  Options [tt] (Some (-5)) 500 5 None 50.

(** Two items of height 10, no overscan. *)
Definition two_items : options unit :=
  Options [tt; tt] (Some 10) 5 0 None 50.

(** Three measured items, no overscan. *)
Definition measured_list : options unit :=
  Options [tt; tt; tt] None 20 0 None 50.

(** The specification's [get]: measured, else the sizing function,
    else the uniform constant, else the default estimate. *)
Definition spec_get {Item} (o : options Item) (hs : gmap nat Z)
    (index : nat) (item : Item) : Z :=
  match hs !! index with
  | Some measured => measured
  | None =>
      match getItemHeight o with
      | Some f => f item index
      | None =>
          match itemHeight o with
          | Some h => h
          | None => estimatedItemHeight o
          end
      end
  end.

(** The specification's column count: the quotient, at least 1. *)
Definition spec_columns (containerWidth cellWidth gap : Z) : Z :=
  Z.max 1 ((containerWidth + gap) / (cellWidth + gap)).

(** Heights 100, 150, 80, 120, 90 by index. *)
Definition five_heights (_ : unit) (index : nat) : Z :=
  nth index [100; 150; 80; 120; 90] 0.

(** The packing of those five items: columns 100 wide with gap 10 in a
    container of 210, which makes two columns. *)
Definition five_packed : JS.result (list Masonry.position) :=
  Masonry.positions [tt; tt; tt; tt; tt] (Masonry.columns 210 100 10)
                    100 10 five_heights.

(** The indices of the items placed in column [c]: those whose [x] is
    [c * (columnWidth + gap)]. *)
Definition column_members (columnWidth gap : Z) (ps : list Masonry.position)
    (c : Z) : list nat :=
  fst <$> filter (fun e => Masonry.pos_x e.2 = c * (columnWidth + gap))
                 (imap (fun index p => (index, p)) ps).

(** The load-more scenario: 100 items, window ending at 96, threshold 5,
    more pages, no fetch in flight; the callback is function 7. *)
Definition near_end : Infinite.deps :=
  Infinite.Deps true false 100 96 5 (Some 7%nat).

(** The same window once the fetch is in flight. *)
Definition near_end_fetching : Infinite.deps :=
  Infinite.Deps true true 100 96 5 (Some 7%nat).

(** [start] as a function of the scroll offset alone. *)
Definition start_at {Item} (o : options Item) (hs : gmap nat Z) (scroll : Z) : Z :=
  start (view_range (render o (State scroll hs))).

End Scenario.

(** ** [useVirtualization]: the rendered window and the scroll operations *)

Module ListView.
Section Hook.
Context {Item : Type}.

(** [l.slice(from, to)] for integers [from], [to]: a negative bound counts
    from the end, both are clamped to the array. *)
Definition slice {A} (l : list A) (from to : Z) : list A :=
  let len := Z.of_nat (length l) in
  let k := if from <? 0 then Z.max (len + from) 0 else Z.min from len in
  let final := if to <? 0 then Z.max (len + to) 0 else Z.min to len in
  take (Z.to_nat (final - k)) (drop (Z.to_nat k) l).

(** [visibleItems]: the entries [{item, index}]. *)
Definition visibleItems (its : list Item) (r : Virtualization.range)
  : list (Item * Z) :=
  imap (fun index item => (item, Virtualization.start r + Z.of_nat index))
       (slice its (Virtualization.start r) (Virtualization.end_ r + 1)).

(** [scrollToIndex(index)].  [current] is [scrollElementRef.current]:
    [None] for a null ref, [Some top] for an element scrolled to [top];
    the result is the value assigned to the element's [scrollTop], [None]
    when nothing is assigned. *)
Definition scrollToIndex (ih : list Z) (index : Z) (current : option Z)
  : option Z :=
  match current with
  | None => None
  | Some _ => Some (JS.reduce_sum (slice ih 0 index))
  end.

(** [scrollToTop()] *)
Definition scrollToTop (current : option Z) : option Z :=
  match current with
  | None => None
  | Some _ => Some 0
  end.

End Hook.
End ListView.

(** ** [useGridVirtualization]: dimensions, visible range, visible cells *)

Module GridView.
Section Hook.
Context {Item : Type}.

Record options : Type := Options {
  items : list Item;
  itemWidth : Z;
  itemHeight : Z;
  containerWidth : Z;
  containerHeight : Z;
  columns : option Z;
  gap : Z;
  overscan : Z;
}.

(** The two [useState] cells. *)
Record state : Type := State {
  scrollTop : Z;
  scrollLeft : Z;
}.

Record dimensions : Type := Dimensions {
  cols : Z;
  rows : Z;
  totalWidth : Z;
  totalHeight : Z;
}.

(** [Math.ceil(a / b)] for [b <> 0]. *)
Definition ceil_div (a b : Z) : Z := - ((- a) / b).

(** [gridDimensions], where every dimension is a finite number: [None]
    stands for the grids whose [cols] is 0 or not finite, for which
    [rows] or [totalWidth] is an infinity or NaN. *)
Definition gridDimensions (o : options) : option dimensions :=
  match Grid.cols (columns o) (containerWidth o) (itemWidth o) (gap o) with
  | JS.Fin c =>
      if c =? 0 then None
      else
        let rows := ceil_div (Z.of_nat (length (items o))) c in
        Some (Dimensions c rows
                (c * itemWidth o + (c - 1) * gap o)
                (rows * itemHeight o + (rows - 1) * gap o))
  | _ => None
  end.

(** [x + k] and [x - k] for a finite [k]. *)
Definition plus (x : JS.num) (k : Z) : JS.num :=
  match x with JS.Fin z => JS.Fin (z + k) | _ => x end.

Definition minus (x : JS.num) (k : Z) : JS.num :=
  match x with JS.Fin z => JS.Fin (z - k) | _ => x end.

(** [Math.max(0, x)] *)
Definition Math_max0 (x : JS.num) : JS.num :=
  match x with
  | JS.Fin z => JS.Fin (Z.max 0 z)
  | JS.PosInf => JS.PosInf
  | JS.NegInf => JS.Fin 0
  | JS.NaN => JS.NaN
  end.

(** [Math.min(b, x)] for a finite [b]. *)
Definition Math_min (b : Z) (x : JS.num) : JS.num :=
  match x with
  | JS.Fin z => JS.Fin (Z.min b z)
  | JS.PosInf => JS.Fin b
  | JS.NegInf => JS.NegInf
  | JS.NaN => JS.NaN
  end.

Record window : Type := Window {
  startRow : JS.num;
  endRow : JS.num;
  startCol : JS.num;
  endCol : JS.num;
}.

Definition visibleRange (o : options) (st : state) (d : dimensions) : window :=
  Window
    (Math_max0 (minus (JS.floor_div (scrollTop st) (itemHeight o + gap o))
                      (overscan o)))
    (Math_min (rows d - 1)
       (plus (JS.floor_div (scrollTop st + containerHeight o)
                           (itemHeight o + gap o))
             (overscan o)))
    (Math_max0 (minus (JS.floor_div (scrollLeft st) (itemWidth o + gap o))
                      (overscan o)))
    (Math_min (cols d - 1)
       (plus (JS.floor_div (scrollLeft st + containerWidth o)
                           (itemWidth o + gap o))
             (overscan o))).

(** The values a [for (let v = from; v <= to; v++)] loop runs through.
    [from] comes out of [Math_max0], so it is never [-Infinity], and [to]
    out of [Math_min], so it is never [Infinity]: with a bound that is
    not finite the first test [v <= to] is false. *)
Definition for_range (from to : JS.num) : list Z :=
  match from, to with
  | JS.Fin a, JS.Fin b => seqZ a (b - a + 1)
  | _, _ => []
  end.

(** [items[index]] for an integer [index]. *)
Definition item_at (its : list Item) (index : Z) : option Item :=
  if index <? 0 then None else its !! Z.to_nat index.

Record cell : Type := Cell {
  cell_item : option Item;
  cell_index : Z;
  cell_row : Z;
  cell_col : Z;
  cell_x : Z;
  cell_y : Z;
}.

Definition visibleItems (o : options) (d : dimensions) (w : window) : list cell :=
  row ← for_range (startRow w) (endRow w);
  col ← for_range (startCol w) (endCol w);
  let index := row * cols d + col in
  if index <? Z.of_nat (length (items o)) then
    [Cell (item_at (items o) index) index row col
          (col * (itemWidth o + gap o)) (row * (itemHeight o + gap o))]
  else [].

End Hook.
Arguments options : clear implicits.
End GridView.
Module GridScenario.

(** 23 cells of 100 by 80 with gap 10 in a container of 430 by 300. *)
Definition gallery : GridView.options unit :=
  GridView.Options (replicate 23 tt) 100 80 430 300 None 10 1.

End GridScenario.

(** ** [useMasonryVirtualization]: the column heights after the pass *)

Module MasonryPass.
Section Hook.
Context {Item : Type}.

(** The local array [columnHeights] once [forEach] has run over [rest],
    [index] being the index of its first item. *)
Fixpoint columnHeights_after (columnWidth gap : Z)
    (getItemHeight : Item -> nat -> Z) (rest : list Item) (index : nat)
    (columnHeights : list Z) : list Z :=
  match rest with
  | [] => columnHeights
  | item :: rest' =>
      columnHeights_after columnWidth gap getItemHeight rest' (S index)
        (Masonry.place columnWidth gap columnHeights
           (getItemHeight item index)).2
  end.

End Hook.
End MasonryPass.

(** ** Timers of the host: [setTimeout], [clearTimeout]

    Time is a logical clock that the host advances; a pending timer may be
    run by the host at any moment from its due time on, never before. *)

Module Timers.
Section Queue.
Context {C : Type}.

(** The pending timers by id, each with its due time and its callback. *)
Record queue : Type := Queue {
  now : Z;
  next_id : nat;
  pending : gmap nat (Z * C);
}.

(** No timer pending at time [t0]; ids start at 1, so every id is truthy. *)
Definition empty (t0 : Z) : queue := Queue t0 1 ∅.

(** [setTimeout(cb, delay)]: a negative delay counts as 0. *)
Definition setTimeout (q : queue) (delay : Z) (cb : C) : nat * queue :=
  (next_id q,
   Queue (now q) (S (next_id q))
         (<[next_id q := (now q + Z.max 0 delay, cb)]> (pending q))).

(** [clearTimeout(id)]; [None] is [undefined] or [null]. *)
Definition clearTimeout (q : queue) (id : option nat) : queue :=
  match id with
  | Some i => Queue (now q) (next_id q) (delete i (pending q))
  | None => q
  end.

Definition advance (q : queue) (dt : Z) : queue :=
  Queue (now q + Z.max 0 dt) (next_id q) (pending q).

(** The host takes timer [id] off the queue to run its callback, which it
    can do only once the timer is due. *)
Definition take_due (q : queue) (id : nat) : option (C * queue) :=
  match pending q !! id with
  | Some (due, cb) =>
      if due <=? now q
      then Some (cb, Queue (now q) (next_id q) (delete id (pending q)))
      else None
  | None => None
  end.

End Queue.
Arguments queue : clear implicits.
End Timers.

(** ** [throttle(func, limit)] of [utils/performance.js] *)

Module Throttle.
Section Instance.
Context {Arg : Type}.
Variable limit : Z.

(** The closure's [inThrottle] ([undefined] at first, which is falsy), the
    host's timers (each callback resets [inThrottle]) and the invocations
    of [func] so far, with their times. *)
Record state : Type := State {
  inThrottle : bool;
  timers : Timers.queue unit;
  calls : list (Z * Arg);
}.

Definition init (t0 : Z) : state := State false (Timers.empty t0) [].

Inductive event : Type :=
| Call (arg : Arg)
| Advance (dt : Z)
| Fire (id : nat).

Definition step (st : state) (e : event) : state :=
  match e with
  | Call arg =>
      if inThrottle st then st
      else
        State true (Timers.setTimeout (timers st) limit tt).2
              (calls st ++ [(Timers.now (timers st), arg)])
  | Advance dt => State (inThrottle st) (Timers.advance (timers st) dt) (calls st)
  | Fire id =>
      match Timers.take_due (timers st) id with
      | Some (_, q) => State false q (calls st)
      | None => st
      end
  end.

Definition run (tr : list event) (st : state) : state := foldl step st tr.

(** The time that the [Advance] events of a trace let pass. *)
Definition elapsed (tr : list event) : Z :=
  foldr (fun e acc => match e with Advance dt => Z.max 0 dt + acc | _ => acc end)
        0 tr.

Definition is_call (e : event) : bool :=
  match e with Call _ => true | _ => false end.


End Instance.
Arguments state : clear implicits.
Arguments event : clear implicits.
End Throttle.

(** ** [handleScroll] of the hooks: [throttle(setScrollTop(...), 16)] *)

Module ScrollHandler.

(** The [scrollTop] state cell after the invocations logged in [st]:
    the argument of the last [setScrollTop], 0 before any. *)
Definition scrollTop_of (st : Throttle.state Z) : Z :=
  match last (Throttle.calls st) with
  | Some (_, top) => top
  | None => 0
  end.

End ScrollHandler.

(** ** [debounce(func, wait, immediate)] of [utils/performance.js] *)

Module Debounce.
Section Instance.
Context {Arg : Type}.
Variable wait : Z.
Variable immediate : bool.

(** The closure's [timeout] ([None] is [undefined] or [null]), the host's
    timers (the callback [later] of a call carries that call's
    arguments) and the invocations of [func] so far, with their times. *)
Record state : Type := State {
  timeout : option nat;
  timers : Timers.queue Arg;
  calls : list (Z * Arg);
}.

Definition init (t0 : Z) : state := State None (Timers.empty t0) [].

Inductive event : Type :=
| Call (arg : Arg)
| Advance (dt : Z)
| Fire (id : nat).

Definition step (st : state) (e : event) : state :=
  match e with
  | Call arg =>
      let callNow :=
        immediate && match timeout st with None => true | Some _ => false end in
      let cleared := Timers.clearTimeout (timers st) (timeout st) in
      let '(id, q) := Timers.setTimeout cleared wait arg in
      State (Some id) q
            (if callNow then calls st ++ [(Timers.now (timers st), arg)]
             else calls st)
  | Advance dt => State (timeout st) (Timers.advance (timers st) dt) (calls st)
  | Fire id =>
      match Timers.take_due (timers st) id with
      | Some (arg, q) =>
          State None q
                (if immediate then calls st
                 else calls st ++ [(Timers.now (timers st), arg)])
      | None => st
      end
  end.

Definition run (tr : list event) (st : state) : state := foldl step st tr.

Definition is_call (e : event) : bool :=
  match e with Call _ => true | _ => false end.

Definition is_fire (e : event) : bool :=
  match e with Fire _ => true | _ => false end.

End Instance.
Arguments state : clear implicits.
Arguments event : clear implicits.
End Debounce.

(** ** [MemoryManager.createExpiredCache(ttl)] of [utils/performance.js] *)

Module ExpiredCache.
Section Cache.
Context `{Countable K} {V : Type}.
Variable ttl : Z.

(** The two maps of the closure and the host's timers; the callback of a
    timer deletes the key it carries from both maps. *)
Record state : Type := State {
  cache : gmap K V;
  timers : gmap K nat;
  host : Timers.queue K;
}.

Definition create (t0 : Z) : state := State ∅ ∅ (Timers.empty t0).

Definition set (key : K) (value : V) (st : state) : state :=
  let cleared :=
    match timers st !! key with
    | Some timer => Timers.clearTimeout (host st) (Some timer)
    | None => host st
    end in
  let '(timer, q) := Timers.setTimeout cleared ttl key in
  State (<[key := value]> (cache st)) (<[key := timer]> (timers st)) q.

Definition get (key : K) (st : state) : option V := cache st !! key.

Definition has (key : K) (st : state) : bool :=
  bool_decide (is_Some (cache st !! key)).

(** [delete(key)]: the result of [cache.delete(key)] and the new state. *)
Definition delete_ (key : K) (st : state) : bool * state :=
  let st' :=
    match timers st !! key with
    | Some timer =>
        State (delete key (cache st)) (delete key (timers st))
              (Timers.clearTimeout (host st) (Some timer))
    | None => State (delete key (cache st)) (timers st) (host st)
    end in
  (bool_decide (is_Some (cache st !! key)), st').

(** [clear()]: [clearTimeout] on every recorded timer (in any order, the
    calls commute), then both maps emptied. *)
Definition clear (st : state) : state :=
  State ∅ ∅
        (foldr (fun timer q => Timers.clearTimeout q (Some timer)) (host st)
               (map_to_list (timers st)).*2).

(** The host runs timer [id], if it is due. *)
Definition fire (id : nat) (st : state) : state :=
  match Timers.take_due (host st) id with
  | Some (key, q) => State (delete key (cache st)) (delete key (timers st)) q
  | None => st
  end.

Inductive event : Type :=
| OpSet (key : K) (value : V)
| OpDelete (key : K)
| OpClear
| Advance (dt : Z)
| Fire (id : nat).

Definition step (st : state) (e : event) : state :=
  match e with
  | OpSet key value => set key value st
  | OpDelete key => (delete_ key st).2
  | OpClear => clear st
  | Advance dt => State (cache st) (timers st) (Timers.advance (host st) dt)
  | Fire id => fire id st
  end.

Definition run (tr : list event) (st : state) : state := foldl step st tr.

(** The time that the [Advance] events of a trace let pass. *)
Definition elapsed (tr : list event) : Z :=
  foldr (fun e acc => match e with Advance dt => Z.max 0 dt + acc | _ => acc end)
        0 tr.

(** The events that write [key] directly. *)
Definition touches (key : K) (e : event) : bool :=
  match e with
  | OpSet k _ | OpDelete k => bool_decide (k = key)
  | OpClear => true
  | _ => false
  end.

End Cache.
Arguments state K {_ _} V.
Arguments event : clear implicits.
End ExpiredCache.

(** ** [ResourcePreloader] of [utils/performance.js] *)

Module ResourcePreloader.

(** A [<link>] element as the methods set it up; an attribute the method
    does not assign is [None]. *)
Record link : Type := Link {
  rel : string;
  as_ : option string;
  href : string;
  type_ : option string;
  fetchPriority : option string;
  crossOrigin : option string;
}.

(** The instance's set and the links appended to [document.head]. *)
Record state : Type := State {
  preloadedResources : gset string;
  head : list link;
}.

Definition create : state := State ∅ [].

(** The shared shape of the four methods: nothing on a known URL,
    otherwise the link is appended and the URL recorded. *)
Definition append (url : string) (l : link) (st : state) : state :=
  if decide (url ∈ preloadedResources st) then st
  else State ({[url]} ∪ preloadedResources st) (head st ++ [l]).

Definition preloadImage (src priority : string) (st : state) : state :=
  append src (Link "preload" (Some "image"%string) src None (Some priority) None) st.

Definition preloadFont (url type : string) (st : state) : state :=
  append url (Link "preload" (Some "font"%string) url (Some type) None
                   (Some "anonymous"%string)) st.

Definition preloadScript (src : string) (st : state) : state :=
  append src (Link "preload" (Some "script"%string) src None None None) st.

Definition prefetchResource (url : string) (st : state) : state :=
  append url (Link "prefetch" None url None None None) st.

Inductive request : Type :=
| Image (src priority : string)
| Font (url type : string)
| Script (src : string)
| Prefetch (url : string).

Definition url_of (r : request) : string :=
  match r with
  | Image src _ | Script src => src
  | Font url _ | Prefetch url => url
  end.

Definition serve (st : state) (r : request) : state :=
  match r with
  | Image src priority => preloadImage src priority st
  | Font url type => preloadFont url type st
  | Script src => preloadScript src st
  | Prefetch url => prefetchResource url st
  end.

Definition run (rs : list request) (st : state) : state := foldl serve st rs.

End ResourcePreloader.

(** ** [AnimationFrame] of [utils/performance.js]

    Callbacks are named by numbers and do not call back into the
    instance; an exception they raise is caught by [tick] and changes
    nothing. *)

Module AnimationFrame.

(** [scheduled] counts the [requestAnimationFrame] callbacks waiting for
    the next frame, [invoked] logs the callbacks run so far. *)
Record state : Type := State {
  callbacks : list nat;
  isRunning : bool;
  scheduled : nat;
  invoked : list nat;
}.

Definition create : state := State [] false 0 [].

Definition tick (st : state) : state :=
  if isRunning st then
    State (callbacks st) true (S (scheduled st)) (invoked st ++ callbacks st)
  else st.

Definition start (st : state) : state :=
  tick (State (callbacks st) true (scheduled st) (invoked st)).

Definition stop (st : state) : state :=
  State (callbacks st) false (scheduled st) (invoked st).

Definition add (callback : nat) (st : state) : state :=
  let st' := State (callbacks st ++ [callback]) (isRunning st) (scheduled st)
                   (invoked st) in
  if isRunning st' then st' else start st'.

(** [l.splice(l.indexOf(v), 1)] when [v] occurs in [l]. *)
Fixpoint remove_first (v : nat) (l : list nat) : list nat :=
  match l with
  | [] => []
  | x :: l' => if decide (x = v) then l' else x :: remove_first v l'
  end.

Definition remove (callback : nat) (st : state) : state :=
  let st' := State (remove_first callback (callbacks st)) (isRunning st)
                   (scheduled st) (invoked st) in
  match callbacks st' with
  | [] => stop st'
  | _ => st'
  end.

(** A frame of the host: the callbacks waiting at its start are run, each
    one a [tick]; what they schedule waits for the next frame. *)
Definition frame (st : state) : state :=
  Nat.iter (scheduled st) tick
           (State (callbacks st) (isRunning st) 0 (invoked st)).

Inductive event : Type :=
| Add (callback : nat)
| Remove (callback : nat)
| Frame.

Definition step (st : state) (e : event) : state :=
  match e with
  | Add callback => add callback st
  | Remove callback => remove callback st
  | Frame => frame st
  end.

Definition run (tr : list event) (st : state) : state := foldl step st tr.

End AnimationFrame.

(** ** Invariants of the stateful utilities *)


(** [debounce]: at most one timer is pending, and [timeout] is its id. *)
Definition debounce_inv {Arg} (st : Debounce.state Arg) : Prop :=
  (Debounce.timeout st = None /\ Timers.pending (Debounce.timers st) = ∅)
  \/ exists id due arg,
       Debounce.timeout st = Some id
       /\ Timers.pending (Debounce.timers st) = {[id := (due, arg)]}.

(** The expiring cache: entries and pending timers correspond one to
    one, and the ids not handed out yet are free. *)
Definition cache_inv `{Countable K} {V : Type} (st : ExpiredCache.state K V)
  : Prop :=
  (forall k, is_Some (ExpiredCache.cache st !! k)
             <-> is_Some (ExpiredCache.timers st !! k))
  /\ (forall k id, ExpiredCache.timers st !! k = Some id ->
        exists due, Timers.pending (ExpiredCache.host st) !! id = Some (due, k))
  /\ (forall id due k,
        Timers.pending (ExpiredCache.host st) !! id = Some (due, k) ->
        ExpiredCache.timers st !! k = Some id)
  /\ (forall id, (Timers.next_id (ExpiredCache.host st) <= id)%nat ->
        Timers.pending (ExpiredCache.host st) !! id = None).

(** The preloader: the recorded URLs are those of the links, each once. *)
Definition preloader_inv (st : ResourcePreloader.state) : Prop :=
  NoDup (ResourcePreloader.href <$> ResourcePreloader.head st)
  /\ forall url, url ∈ ResourcePreloader.preloadedResources st
                 <-> url ∈ ResourcePreloader.href <$> ResourcePreloader.head st.

(** The animation loop runs exactly while callbacks are registered, and
    while it runs a tick is waiting for the next frame. *)
Definition loop_inv (st : AnimationFrame.state) : Prop :=
  (AnimationFrame.isRunning st = true <-> AnimationFrame.callbacks st <> [])
  /\ (AnimationFrame.isRunning st = true ->
      (1 <= AnimationFrame.scheduled st)%nat).

(** * Properties of the list hook *)

Import Virtualization.

Section Sums.

Lemma foldl_add_shift (l : list Z) (a : Z) :
  foldl Z.add a l = a + JS.reduce_sum l.
Proof.
  unfold JS.reduce_sum. revert a.
  induction l as [|h t IH]; intros a; simpl; [lia|].
  rewrite (IH (a + h)), (IH (0 + h)). lia.
Qed.

Lemma reduce_sum_cons (h : Z) (l : list Z) :
  JS.reduce_sum (h :: l) = h + JS.reduce_sum l.
Proof. unfold JS.reduce_sum at 1. simpl. apply foldl_add_shift. Qed.

Lemma reduce_sum_app (l1 l2 : list Z) :
  JS.reduce_sum (l1 ++ l2) = JS.reduce_sum l1 + JS.reduce_sum l2.
Proof.
  unfold JS.reduce_sum at 1. rewrite foldl_app, foldl_add_shift.
  reflexivity.
Qed.

Lemma slice0_prefix (pre rest : list Z) :
  JS.slice0 (pre ++ rest) (Z.of_nat (length pre)) = pre.
Proof. unfold JS.slice0. rewrite Nat2Z.id. apply take_app_length. Qed.

End Sums.

(** C1, as the specification states it, fails: the loop that looks for
    [end] already runs [overscan * estimatedItemHeight] pixels past the
    viewport, and [overscan] items are added on top of that. *)
Lemma uniform_scenario_end_is_not_35 :
  view_range (render Scenario.uniform_list (State 1000 ∅)) <> Range 15 35.
Proof. vm_compute. discriminate. Qed.

(** C1 (amended): with 1000 items of height 50, a viewport of 500,
    overscan 5 and [scrollTop = 1000], the visible range is
    [start = 15], [end = 40], whatever was measured. *)
Theorem uniform_scenario_range (hs : gmap nat Z) :
  view_range (render Scenario.uniform_list (State 1000 hs)) = Range 15 40.
Proof. vm_compute. reflexivity. Qed.

(** ** The extent of one item *)

Section Extents.
Context {Item : Type}.
Implicit Types (o : options Item) (hs : gmap nat Z).

Lemma itemHeights_length o hs : length (itemHeights o hs) = length (items o).
Proof.
  unfold itemHeights.
  destruct (itemHeight o); [apply length_fmap|].
  destruct (getItemHeight o); apply length_imap.
Qed.

Lemma itemHeights_uniform o hs h i item :
  itemHeight o = Some h -> items o !! i = Some item ->
  itemHeights o hs !! i = Some h.
Proof.
  intros Hh Hi. unfold itemHeights. rewrite Hh, list_lookup_fmap, Hi.
  reflexivity.
Qed.

Lemma itemHeights_function o hs f i item :
  itemHeight o = None -> getItemHeight o = Some f -> items o !! i = Some item ->
  itemHeights o hs !! i = Some (f item i).
Proof.
  intros Hh Hf Hi. unfold itemHeights. rewrite Hh, Hf, list_lookup_imap, Hi.
  reflexivity.
Qed.

Lemma itemHeights_measured o hs i item :
  itemHeight o = None -> getItemHeight o = None -> items o !! i = Some item ->
  itemHeights o hs !! i = Some (JS.or_else (hs !! i) (estimatedItemHeight o)).
Proof.
  intros Hh Hf Hi. unfold itemHeights. rewrite Hh, Hf, list_lookup_imap, Hi.
  reflexivity.
Qed.

End Extents.

(** C2, as the specification states it, fails: a configured [itemHeight]
    of 50 wins over a measurement of 80 reported for the same index. *)
Lemma measurement_does_not_override_itemHeight :
  itemHeights Scenario.configured_and_measured {[0%nat := 80]} !! 0%nat
  <> Some (Scenario.spec_get Scenario.configured_and_measured
                             {[0%nat := 80]} 0%nat tt).
Proof.
  unfold Scenario.spec_get. rewrite lookup_singleton_eq.
  vm_compute. discriminate.
Qed.

(** C2 (amended): the extent of the item at an index is the configured
    [itemHeight] when it is a number; otherwise [getItemHeight(item, index)]
    when that function is passed; otherwise the measurement reported for
    the index when there is one and it is not 0; otherwise
    [estimatedItemHeight].  A measurement is only looked at when neither
    [itemHeight] nor [getItemHeight] is configured. *)
Theorem itemHeights_precedence {Item} (o : options Item) (hs : gmap nat Z)
    (i : nat) (item : Item) :
  items o !! i = Some item ->
  (forall h, itemHeight o = Some h -> itemHeights o hs !! i = Some h)
  /\ (forall f, itemHeight o = None -> getItemHeight o = Some f ->
        itemHeights o hs !! i = Some (f item i))
  /\ (forall m, itemHeight o = None -> getItemHeight o = None ->
        hs !! i = Some m -> m <> 0 -> itemHeights o hs !! i = Some m)
  /\ (itemHeight o = None -> getItemHeight o = None ->
        hs !! i = None \/ hs !! i = Some 0 ->
        itemHeights o hs !! i = Some (estimatedItemHeight o)).
Proof.
  intros Hi. repeat split.
  - intros h Hh. eapply itemHeights_uniform; eauto.
  - intros f Hh Hf. eapply itemHeights_function; eauto.
  - intros m Hh Hf Hm Hne.
    rewrite (itemHeights_measured o hs i item Hh Hf Hi), Hm. simpl.
    destruct (Z.eqb_spec m 0); [contradiction|reflexivity].
  - intros Hh Hf Hm.
    rewrite (itemHeights_measured o hs i item Hh Hf Hi).
    destruct Hm as [-> | ->]; reflexivity.
Qed.

Lemma itemHeights_precedence_witness :
  Scenario.configured_and_measured.(items) !! 0%nat = Some tt
  /\ itemHeights Scenario.configured_and_measured {[0%nat := 80]} !! 0%nat = Some 50.
Proof.
  split; [reflexivity|].
  destruct (itemHeights_precedence Scenario.configured_and_measured
              {[0%nat := 80]} 0%nat tt eq_refl) as [Huniform _].
  apply Huniform. reflexivity.
Defined.

(** C9, as the specification states it, fails: a negative configured
    height reaches the range computation unchanged. *)
Lemma negative_extent_is_used :
  ~ Forall (fun h => 0 <= h) (itemHeights Scenario.negative_height ∅).
Proof.
  intros H. apply Forall_inv in H. vm_compute in H. apply H. reflexivity.
Qed.

(** C9 (amended): extents are used as they are supplied, without
    clamping.  A missing measurement is replaced by [estimatedItemHeight]
    when neither [itemHeight] nor [getItemHeight] is configured, and every
    extent used is non-negative as soon as the configured [itemHeight],
    the results of [getItemHeight], the reported measurements and
    [estimatedItemHeight] are. *)
Theorem itemHeights_nonneg {Item} (o : options Item) (hs : gmap nat Z) :
  (forall h, itemHeight o = Some h -> 0 <= h) ->
  (forall f i item, getItemHeight o = Some f -> items o !! i = Some item ->
     0 <= f item i) ->
  (forall i m, hs !! i = Some m -> 0 <= m) ->
  0 <= estimatedItemHeight o ->
  Forall (fun h => 0 <= h) (itemHeights o hs)
  /\ (forall i item, itemHeight o = None -> getItemHeight o = None ->
        items o !! i = Some item -> hs !! i = None ->
        itemHeights o hs !! i = Some (estimatedItemHeight o)).
Proof.
  intros Hu Hf Hm He. split.
  - apply Forall_lookup. intros i h Hih.
    assert (is_Some (items o !! i)) as [item Hi].
    { apply lookup_lt_is_Some. rewrite <- (itemHeights_length o hs).
      eapply lookup_lt_Some; eauto. }
    destruct (itemHeight o) as [u|] eqn:Eu.
    { rewrite (itemHeights_uniform o hs u i item Eu Hi) in Hih.
      injection Hih as <-. auto. }
    destruct (getItemHeight o) as [f|] eqn:Ef.
    { rewrite (itemHeights_function o hs f i item Eu Ef Hi) in Hih.
      injection Hih as <-. eauto. }
    rewrite (itemHeights_measured o hs i item Eu Ef Hi) in Hih.
    injection Hih as <-. unfold JS.or_else.
    destruct (hs !! i) as [m|] eqn:Em; [|assumption].
    destruct (m =? 0); [assumption|eauto].
  - intros i item Eu Ef Hi Em.
    rewrite (itemHeights_measured o hs i item Eu Ef Hi), Em. reflexivity.
Qed.

Lemma itemHeights_nonneg_witness :
  Forall (fun h => 0 <= h) (itemHeights Scenario.measured_list {[1%nat := 30]}).
Proof.
  eapply proj1.
  apply (itemHeights_nonneg Scenario.measured_list {[1%nat := 30]}).
  - simpl. discriminate.
  - simpl. discriminate.
  - intros i m H. apply lookup_singleton_Some in H as [_ <-]. lia.
  - simpl. lia.
Defined.

(** C10: when neither [itemHeight] nor [getItemHeight] is configured,
    reporting a height of exactly 0 for an index leaves every derived value
    as if the index had no measurement: its extent is
    [estimatedItemHeight], and the extents, the visible range, the total
    height and the offset all equal those of the state with the
    measurement removed. *)
Theorem zero_measurement_is_ignored {Item} (o : options Item) (st : state)
    (index : nat) :
  itemHeight o = None -> getItemHeight o = None ->
  let st' := measureItem index (Some 0) st in
  (forall item, items o !! index = Some item ->
     itemHeights o (heights st') !! index = Some (estimatedItemHeight o))
  /\ itemHeights o (heights st') = itemHeights o (delete index (heights st))
  /\ render o st' = render o (State (scrollTop st) (delete index (heights st))).
Proof.
  intros Eu Ef st'.
  assert (itemHeights o (heights st')
          = itemHeights o (delete index (heights st))) as Heq.
  { unfold itemHeights. rewrite Eu, Ef. apply imap_ext. intros i x _. simpl.
    destruct (decide (index = i)) as [->|Hne].
    - rewrite lookup_insert_eq, lookup_delete_eq. reflexivity.
    - rewrite lookup_insert_ne, lookup_delete_ne by assumption. reflexivity. }
  split; [|split].
  - intros item Hi.
    rewrite (itemHeights_measured o _ index item Eu Ef Hi). simpl.
    rewrite lookup_insert_eq. reflexivity.
  - exact Heq.
  - unfold render. change (scrollTop st') with (scrollTop st).
    rewrite Heq. reflexivity.
Qed.

Lemma zero_measurement_is_ignored_witness :
  itemHeights Scenario.measured_list
    (heights (measureItem 1%nat (Some 0) (State 0 {[1%nat := 30]})))
  = itemHeights Scenario.measured_list (delete 1%nat {[1%nat := 30]}).
Proof.
  destruct (zero_measurement_is_ignored Scenario.measured_list
              (State 0 {[1%nat := 30]}) 1%nat eq_refl eq_refl)
    as (_ & Hsame & _).
  exact Hsame.
Defined.

(** ** The first loop of [visibleRange] *)

Section Start.

(** Invariant of the loop: [pre] are the extents already passed. *)
Lemma find_start_offset (scroll : Z) (rest pre : list Z) :
  0 <= scroll -> JS.reduce_sum pre <= scroll ->
  JS.reduce_sum
    (JS.slice0 (pre ++ rest)
       (find_start scroll 0 rest (length pre) (JS.reduce_sum pre)))
  <= scroll.
Proof.
  intros Hs. revert pre.
  induction rest as [|h t IH]; intros pre Hpre; simpl.
  - unfold JS.slice0. simpl. rewrite take_0. assumption.
  - destruct (Z.ltb_spec scroll (JS.reduce_sum pre + h)) as [Hlt|Hge].
    + replace (Z.max 0 (Z.of_nat (length pre) - 0))
        with (Z.of_nat (length pre)) by lia.
      rewrite slice0_prefix. assumption.
    + specialize (IH (pre ++ [h])).
      rewrite reduce_sum_app, reduce_sum_cons, length_app, <- app_assoc in IH.
      simpl in IH.
      replace (length pre + 1)%nat with (S (length pre)) in IH by lia.
      replace (JS.reduce_sum pre + (h + JS.reduce_sum []))
        with (JS.reduce_sum pre + h) in IH by (unfold JS.reduce_sum; simpl; lia).
      apply IH. lia.
Qed.

Lemma find_start_lower (scroll ov : Z) (rest : list Z) (i : nat) (acc : Z) :
  breaks scroll rest acc = true ->
  Z.max 0 (Z.of_nat i - ov) <= find_start scroll ov rest i acc.
Proof.
  revert i acc. induction rest as [|h t IH]; intros i acc; simpl.
  - discriminate.
  - destruct (scroll <? acc + h); simpl; [lia|].
    intros Hb. specialize (IH (S i) _ Hb). lia.
Qed.

Lemma find_start_mono (s1 s2 ov : Z) (rest : list Z) (i : nat) (acc : Z) :
  s1 <= s2 -> breaks s2 rest acc = true ->
  find_start s1 ov rest i acc <= find_start s2 ov rest i acc.
Proof.
  intros Hle. revert i acc.
  induction rest as [|h t IH]; intros i acc; simpl.
  - discriminate.
  - destruct (Z.ltb_spec s2 (acc + h)) as [H2|H2]; simpl.
    + destruct (Z.ltb_spec s1 (acc + h)); [lia|lia].
    + intros Hb. destruct (Z.ltb_spec s1 (acc + h)).
      * pose proof (find_start_lower s2 ov t (S i) (acc + h) Hb). lia.
      * apply IH. assumption.
Qed.

Lemma breaks_below_total (scroll : Z) (rest : list Z) (acc : Z) :
  acc <= scroll -> scroll < acc + JS.reduce_sum rest ->
  breaks scroll rest acc = true.
Proof.
  revert acc. induction rest as [|h t IH]; intros acc Hlo Hhi; simpl.
  - unfold JS.reduce_sum in Hhi. simpl in Hhi. lia.
  - rewrite reduce_sum_cons in Hhi.
    destruct (Z.ltb_spec scroll (acc + h)); simpl; [reflexivity|].
    apply IH; lia.
Qed.

(** Below the total extent the start index never moves backwards. *)
Lemma start_monotone_below_total {Item} (o : options Item) (ih : list Z)
    (s1 s2 : Z) :
  s1 <= s2 -> 0 <= s2 < totalHeight ih ->
  start (visibleRange o s1 ih) <= start (visibleRange o s2 ih).
Proof.
  intros Hle [H0 Hlt]. unfold visibleRange. simpl.
  apply find_start_mono; [assumption|].
  apply breaks_below_total; [assumption|]. unfold totalHeight in Hlt. lia.
Qed.

End Start.

(** C8: with non-negative extents, at least one item, no overscan and a
    scroll offset between 0 and the total extent, the offset of the start
    index (the sum of the extents below it) is at most the scroll
    offset. *)
Theorem start_offset_at_most_scroll {Item} (o : options Item)
    (hs : gmap nat Z) (scroll : Z) :
  (1 <= length (items o))%nat ->
  overscan o = 0 ->
  Forall (fun h => 0 <= h) (itemHeights o hs) ->
  0 <= scroll <= totalHeight (itemHeights o hs) ->
  view_offsetY (render o (State scroll hs)) <= scroll.
Proof.
  intros _ Hov _ [Hs _]. unfold render, offsetY, visibleRange. simpl.
  rewrite Hov.
  apply (find_start_offset scroll (itemHeights o hs) []); [assumption|].
  unfold JS.reduce_sum. simpl. assumption.
Qed.

Lemma start_offset_at_most_scroll_witness :
  view_offsetY (render Scenario.two_items (State 15 ∅)) <= 15.
Proof.
  apply (start_offset_at_most_scroll Scenario.two_items ∅ 15).
  - simpl. lia.
  - reflexivity.
  - vm_compute. repeat constructor; discriminate.
  - vm_compute. split; discriminate.
Defined.

(** C5 fails on the code at the total extent: two items of height 10,
    no overscan.  At offset 15 the first loop stops at index 1; at offset
    20, the total extent, no item ends past the offset, the loop runs off the
    list and [start] keeps its initial 0. *)
Theorem start_falls_back_at_total_extent :
  totalHeight (itemHeights Scenario.two_items ∅) = 20
  /\ Scenario.start_at Scenario.two_items ∅ 15 = 1
  /\ Scenario.start_at Scenario.two_items ∅ 20 = 0
  /\ ~ (Scenario.start_at Scenario.two_items ∅ 15
        <= Scenario.start_at Scenario.two_items ∅ 20).
Proof. vm_compute. repeat split; try reflexivity. intros H. apply H. reflexivity. Qed.

(** * The load-more effect *)

Import Infinite.

Section LoadMore.

Lemma effect_while_fetching (d : deps) (calls : list nat) :
  isFetchingNextPage d = true -> effect d calls = calls.
Proof.
  intros Hf. unfold effect, shouldLoadMore. rewrite Hf.
  rewrite andb_false_r. reflexivity.
Qed.

Lemma renders_while_fetching (ds : list deps) :
  Forall (fun d => isFetchingNextPage d = true) ds ->
  forall prev calls, renders prev ds calls = calls.
Proof.
  induction 1 as [|d ds Hd _ IH]; intros prev calls; simpl; [reflexivity|].
  rewrite IH. unfold commit. case_decide; [reflexivity|].
  apply effect_while_fetching. assumption.
Qed.

Lemma shouldLoadMore_iff (d : deps) :
  shouldLoadMore d = true
  <-> items_length d - visibleRange_end d <= loadMoreThreshold d
      /\ hasNextPage d = true /\ isFetchingNextPage d = false.
Proof.
  unfold shouldLoadMore.
  rewrite !andb_true_iff, negb_true_iff, Z.leb_le. tauto.
Qed.

(** The last render of a history: its effect is committed against the
    dependency list of the render before it. *)
Lemma renders_snoc (prev : option deps) (ds : list deps) (d : deps)
    (calls : list nat) :
  renders prev (ds ++ [d]) calls
  = commit (match last ds with Some d' => Some d' | None => prev end) d
           (renders prev ds calls).
Proof.
  revert prev calls. induction ds as [|x ds IH]; intros prev calls.
  - reflexivity.
  - simpl. rewrite IH, last_cons. destruct (last ds); reflexivity.
Qed.

Lemma effect_with_callback (d : deps) (f : nat) (calls : list nat) :
  fetchNextPage d = Some f ->
  effect d calls = if shouldLoadMore d then calls ++ [f] else calls.
Proof. intros Hf. unfold effect. rewrite Hf. reflexivity. Qed.

End LoadMore.

(** C6: a run of the effect with callback [f] invokes [f], once, exactly
    when [items.length - visibleRange.end <= loadMoreThreshold],
    [hasNextPage] is true and [isFetchingNextPage] is false, and leaves the
    log unchanged otherwise.  The effect runs after the first render and
    after every render whose dependencies differ from those of the render
    before, and after no other: so at any render of any history the
    callback is invoked, once, exactly when the dependencies have changed
    and the three conditions hold.  No sequence of renders in which
    [isFetchingNextPage] is true invokes it, whatever the windows are.  In
    the scenario (100 items, end 96, threshold 5) the first render invokes
    the callback once; the following render, fetch in flight, does not
    invoke it again, nor does a re-render with the same dependencies; a
    window that reaches the threshold only at a later render fires at that
    render; and once the flag has cleared and the longer list is
    scrolled to its end the callback is invoked a second time. *)
Theorem load_more_fires_iff :
  (forall hasNext fetching n e threshold f calls,
     let d := Deps hasNext fetching n e threshold (Some f) in
     let fires := n - e <= threshold /\ hasNext = true /\ fetching = false in
     (fires -> effect d calls = calls ++ [f])
     /\ (~ fires -> effect d calls = calls))
  /\ (forall prev d calls,
        (prev = Some d -> commit prev d calls = calls)
        /\ (prev <> Some d -> commit prev d calls = effect d calls))
  /\ (forall prev ds hasNext fetching n e threshold f calls,
        let d := Deps hasNext fetching n e threshold (Some f) in
        let before := match last ds with Some d' => Some d' | None => prev end in
        let fires :=
          before <> Some d
          /\ n - e <= threshold /\ hasNext = true /\ fetching = false in
        (fires -> renders prev (ds ++ [d]) calls = renders prev ds calls ++ [f])
        /\ (~ fires -> renders prev (ds ++ [d]) calls = renders prev ds calls))
  /\ (forall ds prev calls,
        Forall (fun d => isFetchingNextPage d = true) ds ->
        renders prev ds calls = calls)
  /\ renders None [Scenario.near_end] [] = [7%nat]
  /\ renders None [Scenario.near_end; Scenario.near_end_fetching] [] = [7%nat]
  /\ renders None [Scenario.near_end; Scenario.near_end] [] = [7%nat]
  /\ renders None [Deps true false 100 50 5 (Some 7%nat); Scenario.near_end] []
     = [7%nat]
  /\ renders None
       [Scenario.near_end; Scenario.near_end_fetching;
        Deps true false 120 96 5 (Some 7%nat);
        Deps true false 120 116 5 (Some 7%nat)] []
     = [7%nat; 7%nat].
Proof.
  assert (forall hasNext fetching n e threshold f calls,
            let d := Deps hasNext fetching n e threshold (Some f) in
            let fires :=
              n - e <= threshold /\ hasNext = true /\ fetching = false in
            (fires -> effect d calls = calls ++ [f])
            /\ (~ fires -> effect d calls = calls)) as Hbody.
  { intros hasNext fetching n e threshold f calls d fires.
    pose proof (shouldLoadMore_iff d) as Hiff. simpl in Hiff.
    rewrite (effect_with_callback d f calls eq_refl).
    destruct (shouldLoadMore d).
    - split; [reflexivity|]. intros Hn. exfalso. apply Hn, Hiff. reflexivity.
    - split; [|reflexivity]. intros Hf. apply Hiff in Hf. discriminate. }
  assert (forall prev d calls,
            (prev = Some d -> commit prev d calls = calls)
            /\ (prev <> Some d -> commit prev d calls = effect d calls))
    as Hcommit.
  { intros prev d calls. unfold commit.
    destruct (decide (prev = Some d)) as [Heq|Hne]; split; intros H;
      try reflexivity; contradiction. }
  split; [exact Hbody|]. split; [exact Hcommit|]. split; [|split].
  - intros prev ds hasNext fetching n e threshold f calls d before fires.
    rewrite renders_snoc. fold before.
    destruct (Hcommit before d (renders prev ds calls)) as [Hsame Hchanged].
    destruct (Hbody hasNext fetching n e threshold f (renders prev ds calls))
      as [Hyes Hno].
    fold d in Hyes, Hno. split.
    + intros (Hne & Hcond). rewrite (Hchanged Hne). apply Hyes. exact Hcond.
    + intros Hnot. destruct (decide (before = Some d)) as [Heq|Hne].
      * apply Hsame. exact Heq.
      * rewrite (Hchanged Hne). apply Hno. intros Hcond. apply Hnot.
        split; assumption.
  - intros ds prev calls Hds. apply renders_while_fetching. assumption.
  - repeat split; reflexivity.
Qed.

(** * Column counts *)

(** C4, as the specification states it, fails: a container 50 wide holds
    no cell 100 wide, and both hooks compute 0 columns, not 1. *)
Lemma narrow_container_has_zero_columns :
  Grid.cols None 50 100 0 <> JS.Fin (Scenario.spec_columns 50 100 0)
  /\ Masonry.columns 50 100 0 <> JS.Fin (Scenario.spec_columns 50 100 0).
Proof. vm_compute. split; discriminate. Qed.

(** C4 (amended): when no explicit column count is passed and
    [cellWidth + gap] is not 0, the column count of the grid and of the
    masonry hook is [floor((containerWidth + gap) / (cellWidth + gap))],
    with no minimum: it is 0 whenever
    [0 <= containerWidth + gap < cellWidth + gap]. *)
Theorem columns_unclamped (containerWidth cellWidth gap : Z) :
  cellWidth + gap <> 0 ->
  Grid.cols None containerWidth cellWidth gap
    = JS.Fin ((containerWidth + gap) / (cellWidth + gap))
  /\ Masonry.columns containerWidth cellWidth gap
    = JS.Fin ((containerWidth + gap) / (cellWidth + gap))
  /\ (0 <= containerWidth + gap < cellWidth + gap ->
      Grid.cols None containerWidth cellWidth gap = JS.Fin 0
      /\ Masonry.columns containerWidth cellWidth gap = JS.Fin 0).
Proof.
  intros Hne.
  assert (Masonry.columns containerWidth cellWidth gap
          = JS.Fin ((containerWidth + gap) / (cellWidth + gap))) as Hm.
  { unfold Masonry.columns, JS.floor_div.
    destruct (Z.eqb_spec (cellWidth + gap) 0); [contradiction|reflexivity]. }
  split; [exact Hm|]. split; [exact Hm|].
  intros Hsmall. unfold Grid.cols. fold (Masonry.columns containerWidth cellWidth gap).
  rewrite Hm, Z.div_small by assumption. split; reflexivity.
Qed.

Lemma columns_unclamped_witness :
  Grid.cols None 50 100 10 = JS.Fin 0 /\ Masonry.columns 50 100 10 = JS.Fin 0.
Proof.
  destruct (columns_unclamped 50 100 10) as (_ & _ & Hzero); [lia|].
  apply Hzero. lia.
Defined.

(** * Masonry packing *)

Section Packing.
Import Masonry.

Lemma foldl_min_le (t : list Z) (h : Z) :
  foldl Z.min h t <= h /\ Forall (fun w => foldl Z.min h t <= w) t.
Proof.
  revert h. induction t as [|a t IH]; intros h; simpl.
  - split; [lia|constructor].
  - destruct (IH (Z.min h a)) as [Hh Ht]. split; [lia|].
    constructor; [lia|assumption].
Qed.

Lemma foldl_min_elem (t : list Z) (h : Z) : foldl Z.min h t ∈ h :: t.
Proof.
  revert h. induction t as [|a t IH]; intros h; simpl.
  - apply list_elem_of_here.
  - specialize (IH (Z.min h a)).
    apply elem_of_cons in IH as [->|IH].
    + destruct (Z.min_spec h a) as [[_ ->]|[_ ->]].
      * apply list_elem_of_here.
      * apply list_elem_of_further, list_elem_of_here.
    + do 2 apply list_elem_of_further. assumption.
Qed.

Lemma indexOf_from_found (l : list Z) (v i : Z) :
  v ∈ l ->
  exists k : nat,
    indexOf_from l v i = i + Z.of_nat k
    /\ l !! k = Some v
    /\ forall j w, (j < k)%nat -> l !! j = Some w -> w <> v.
Proof.
  revert i. induction l as [|a l IH]; intros i Hin.
  - apply elem_of_nil in Hin. contradiction.
  - simpl. destruct (Z.eqb_spec a v) as [->|Hne].
    + exists 0%nat. split; [lia|]. split; [reflexivity|]. intros j w Hj. lia.
    + apply elem_of_cons in Hin as [->|Hin]; [contradiction|].
      destruct (IH (i + 1) Hin) as (k & Hk & Hv & Hfirst).
      exists (S k). split; [lia|]. split; [exact Hv|].
      intros [|j] w Hj Hw; simpl in Hw.
      * injection Hw as <-. assumption.
      * apply (Hfirst j); [lia|assumption].
Qed.

(** One placement on at least one column. *)
Lemma place_greedy (columnWidth gap : Z) (chs : list Z) (height : Z) :
  chs <> [] ->
  exists (c : nat) (m : Z),
    chs !! c = Some m
    /\ (forall j w, chs !! j = Some w -> m <= w)
    /\ (forall j w, (j < c)%nat -> chs !! j = Some w -> m < w)
    /\ place columnWidth gap chs height
       = (Position (Z.of_nat c * (columnWidth + gap)) (Some m) height,
          <[c := m + (height + gap)]> chs).
Proof.
  destruct chs as [|c0 cs]; [congruence|]. intros _.
  set (m := foldl Z.min c0 cs).
  destruct (indexOf_from_found (c0 :: cs) m 0 (foldl_min_elem cs c0))
    as (c & Hc & Hm & Hfirst).
  assert (forall j w, (c0 :: cs) !! j = Some w -> m <= w) as Hmin.
  { intros j w Hw. destruct (foldl_min_le cs c0) as [H0 Hcs].
    destruct j as [|j]; simpl in Hw.
    - injection Hw as <-. exact H0.
    - rewrite Forall_lookup in Hcs. exact (Hcs j w Hw). }
  exists c, m. split; [exact Hm|]. split; [exact Hmin|]. split.
  - intros j w Hj Hw. pose proof (Hmin j w Hw). pose proof (Hfirst j w Hj Hw). lia.
  - unfold place, indexOf, Math_min. fold m. rewrite Hc.
    unfold get, add_at.
    replace (0 + Z.of_nat c <? 0) with false by (symmetry; apply Z.ltb_ge; lia).
    replace (Z.to_nat (0 + Z.of_nat c)) with c by lia.
    rewrite Hm. reflexivity.
Qed.

End Packing.

(** C7: on a non-empty array of column heights an item goes to the first
    column whose accumulated height is minimal, is recorded at that
    column's [x] and current height, and the column grows by the item's
    height plus the gap; items are placed in sequence order.  Heights
    100, 150, 80, 120, 90 on 2 columns with gap 10 put items 0, 2, 4 in
    column 0 and items 1, 3 in column 1, and [totalHeight] is 290. *)
Theorem masonry_packing_greedy :
  (forall columnWidth gap c0 cs height,
     let chs := c0 :: cs in
     exists (c : nat) (m : Z),
       chs !! c = Some m
       /\ (forall j w, chs !! j = Some w -> m <= w)
       /\ (forall j w, (j < c)%nat -> chs !! j = Some w -> m < w)
       /\ Masonry.place columnWidth gap chs height
          = (Masonry.Position (Z.of_nat c * (columnWidth + gap)) (Some m) height,
             <[c := m + (height + gap)]> chs))
  /\ (forall (Item : Type) (getItemHeight : Item -> nat -> Z)
             columnWidth gap item rest index chs,
        Masonry.pack columnWidth gap getItemHeight (item :: rest) index chs
        = (Masonry.place columnWidth gap chs (getItemHeight item index)).1
          :: Masonry.pack columnWidth gap getItemHeight rest (S index)
               (Masonry.place columnWidth gap chs (getItemHeight item index)).2)
  /\ Masonry.columns 210 100 10 = JS.Fin 2
  /\ exists ps,
       Scenario.five_packed = JS.Ok ps
       /\ Scenario.column_members 100 10 ps 0 = [0; 2; 4]%nat
       /\ Scenario.column_members 100 10 ps 1 = [1; 3]%nat
       /\ Masonry.totalHeight ps = Some 290.
Proof.
  split; [|split; [|split]].
  - intros columnWidth gap c0 cs height chs.
    apply place_greedy. discriminate.
  - intros Item getItemHeight columnWidth gap item rest index chs. simpl.
    destruct (Masonry.place columnWidth gap chs (getItemHeight item index)).
    reflexivity.
  - reflexivity.
  - eexists. split; [vm_compute; reflexivity|].
    repeat split; vm_compute; reflexivity.
Qed.

(** * The masonry visibility filter *)

Section Visibility.
Import Masonry.

(** With a container bottom at hand, the filter callback is the interval
    test: the item's [y, y + height] against the viewport widened by
    [overscan * 100] on both sides. *)
Lemma in_window_iff (scrollTop containerBottom overscan : Z) (x y height : Z) :
  in_window scrollTop containerBottom overscan (Some (Position x (Some y) height))
  = true
  <-> scrollTop - overscan * 100 <= y + height
      /\ y <= containerBottom + overscan * 100.
Proof.
  unfold in_window. simpl. rewrite andb_true_iff, !Z.leb_le. tauto.
Qed.

Lemma in_window_unplaced (scrollTop containerBottom overscan : Z) :
  in_window scrollTop containerBottom overscan None = false.
Proof. reflexivity. Qed.

End Visibility.

(** C3 fails on the code: [containerHeight] is not an option of
    [useMasonryVirtualization] nor bound anywhere in it, so unless the global
    object happens to define it, computing [visibleItems] throws a
    [ReferenceError] on every input, before any item is filtered. *)
Theorem masonry_visibleItems_throws {Item} (globals : gmap string Z)
    (items : list Item) (ps : list Masonry.position) (scrollTop overscan : Z) :
  globals !! "containerHeight"%string = None ->
  ("containerHeight"%string ∉ Masonry.scope)
  /\ Masonry.visibleItems globals items ps scrollTop overscan
     = JS.Throw (JS.ReferenceError "containerHeight").
Proof.
  intros Hfree. split.
  - unfold Masonry.scope. rewrite !not_elem_of_cons.
    repeat split; try discriminate. apply not_elem_of_nil.
  - unfold Masonry.visibleItems, Masonry.free_variable. rewrite Hfree.
    reflexivity.
Qed.

Lemma masonry_visibleItems_throws_witness :
  Masonry.visibleItems ∅ [tt; tt; tt; tt; tt]
    (Masonry.pack 100 10 Scenario.five_heights [tt; tt; tt; tt; tt] 0%nat [0; 0])
    0 5
  = JS.Throw (JS.ReferenceError "containerHeight").
Proof.
  eapply proj2.
  apply (masonry_visibleItems_throws (Item := unit) ∅); reflexivity.
Defined.

(** * The window of the list hook *)

Section Window.

Lemma find_start_nonneg (scroll ov : Z) (rest : list Z) (i : nat) (acc : Z) :
  0 <= find_start scroll ov rest i acc.
Proof.
  revert i acc. induction rest as [|h t IH]; intros i acc; simpl; [lia|].
  destruct (scroll <? acc + h); [lia|apply IH].
Qed.

Lemma find_start_upper (scroll ov : Z) (rest : list Z) (i : nat) (acc : Z) :
  0 <= ov ->
  find_start scroll ov rest i acc
  <= Z.max 0 (Z.of_nat i + Z.of_nat (length rest) - 1).
Proof.
  intros Hov. revert i acc.
  induction rest as [|h t IH]; intros i acc; simpl; [lia|].
  destruct (scroll <? acc + h); [lia|].
  specialize (IH (S i) (acc + h)). lia.
Qed.

Lemma find_end_lower (limit : Z) (rest : list Z) (i acc e : Z) :
  e <= i -> e <= find_end limit rest i acc e.
Proof.
  revert i acc e. induction rest as [|h t IH]; intros i acc e He; simpl; [lia|].
  destruct (limit <? acc); [lia|].
  specialize (IH (i + 1) (acc + h) i). lia.
Qed.

Lemma slice_window {A} (l : list A) (a b : Z) :
  0 <= a -> a <= b -> b <= Z.of_nat (length l) ->
  ListView.slice l a b = take (Z.to_nat (b - a)) (drop (Z.to_nat a) l).
Proof.
  intros Ha Hab Hb. unfold ListView.slice.
  replace (a <? 0) with false by (symmetry; apply Z.ltb_ge; lia).
  replace (b <? 0) with false by (symmetry; apply Z.ltb_ge; lia).
  rewrite !Z.min_l by lia. reflexivity.
Qed.

(** The bounds that [items.slice(start, end + 1)] receives. *)
Lemma range_window {Item} (o : options Item) (scroll : Z) (ih : list Z) :
  0 <= overscan o -> length ih = length (items o) ->
  let r := visibleRange o scroll ih in
  0 <= start r /\ start r <= end_ r + 1
  /\ end_ r + 1 <= Z.of_nat (length (items o)).
Proof.
  intros Hov Hlen r.
  pose proof (find_start_nonneg scroll (overscan o) ih 0 0) as H0.
  pose proof (find_start_upper scroll (overscan o) ih 0 0 Hov) as H1.
  rewrite Hlen in H1.
  subst r. unfold visibleRange. cbn [start end_].
  set (s := find_start scroll (overscan o) ih 0 0) in *.
  match goal with |- context [find_end ?l ?rest ?i ?acc ?e] =>
    pose proof (find_end_lower l rest i acc e (Z.le_refl _)) as H2 end.
  lia.
Qed.

End Window.

(** X1: with a non-negative overscan the range of a non-empty list is a
    window of valid indices, [0 <= start <= end <= items.length - 1]; on an
    empty list it is the empty range [start = 0], [end = -1]. *)
Theorem visibleRange_bounds {Item} (o : options Item) (scroll : Z)
    (hs : gmap nat Z) :
  0 <= overscan o ->
  let r := visibleRange o scroll (itemHeights o hs) in
  (items o <> [] ->
     0 <= start r /\ start r <= end_ r
     /\ end_ r <= Z.of_nat (length (items o)) - 1)
  /\ (items o = [] -> r = Range 0 (-1)).
Proof.
  intros Hov r. split.
  - intros Hne.
    assert (0 < length (items o))%nat as Hlen.
    { destruct (items o); [congruence|simpl; lia]. }
    pose proof (find_start_nonneg scroll (overscan o) (itemHeights o hs) 0 0) as H0.
    pose proof (find_start_upper scroll (overscan o) (itemHeights o hs) 0 0 Hov) as H1.
    rewrite itemHeights_length in H1.
    subst r. unfold visibleRange. cbn [start end_].
    set (s := find_start scroll (overscan o) (itemHeights o hs) 0 0) in *.
    match goal with |- context [find_end ?l ?rest ?i ?acc ?e] =>
      pose proof (find_end_lower l rest i acc e (Z.le_refl _)) as H2 end.
    lia.
  - intros Hnil. subst r. unfold visibleRange.
    assert (itemHeights o hs = []) as ->.
    { apply length_zero_iff_nil. rewrite itemHeights_length, Hnil. reflexivity. }
    rewrite Hnil. simpl. f_equal. lia.
Qed.

Lemma visibleRange_bounds_witness :
  let r := visibleRange Scenario.two_items 15 (itemHeights Scenario.two_items ∅) in
  0 <= start r /\ start r <= end_ r /\ end_ r <= 2 - 1.
Proof.
  apply (visibleRange_bounds Scenario.two_items 15 ∅); [simpl; lia|].
  discriminate.
Defined.

(** X2: with a non-negative overscan [visibleItems] is the run of items at
    the indices [start], [start + 1], ..., [end], each paired with its own
    index: it has [end - start + 1] entries and the entry at position [k]
    is the item at index [start + k]. *)
Theorem visibleItems_is_the_window {Item} (o : options Item) (scroll : Z)
    (hs : gmap nat Z) :
  0 <= overscan o ->
  let r := visibleRange o scroll (itemHeights o hs) in
  let vis := ListView.visibleItems (items o) r in
  length vis = Z.to_nat (end_ r - start r + 1)
  /\ forall k : nat, (k < length vis)%nat ->
       exists item,
         items o !! (Z.to_nat (start r) + k)%nat = Some item
         /\ vis !! k = Some (item, start r + Z.of_nat k).
Proof.
  intros Hov r vis.
  destruct (range_window o scroll (itemHeights o hs) Hov
              (itemHeights_length o hs)) as (H0 & H1 & H2).
  fold r in H0, H1, H2.
  assert (length vis = Z.to_nat (end_ r - start r + 1)) as Hlen.
  { subst vis. unfold ListView.visibleItems.
    rewrite length_imap, slice_window by lia.
    rewrite length_take, length_drop. lia. }
  split; [exact Hlen|].
  intros k Hk. subst vis. unfold ListView.visibleItems in *.
  rewrite list_lookup_imap, slice_window by lia.
  rewrite lookup_take_lt by lia. rewrite lookup_drop.
  destruct (items o !! (Z.to_nat (start r) + k)%nat) as [item|] eqn:E.
  - exists item. split; reflexivity.
  - apply lookup_ge_None in E. lia.
Qed.

Lemma visibleItems_is_the_window_witness :
  length (ListView.visibleItems (items Scenario.uniform_list)
            (visibleRange Scenario.uniform_list 1000
               (itemHeights Scenario.uniform_list ∅)))
  = Z.to_nat
      (end_ (visibleRange Scenario.uniform_list 1000
               (itemHeights Scenario.uniform_list ∅))
       - start (visibleRange Scenario.uniform_list 1000
                  (itemHeights Scenario.uniform_list ∅)) + 1).
Proof.
  apply (visibleItems_is_the_window Scenario.uniform_list 1000 ∅).
  simpl. lia.
Defined.

(** * Coverage of the viewport *)

Section Coverage.

Lemma reduce_sum_nonneg (l : list Z) :
  Forall (fun h => 0 <= h) l -> 0 <= JS.reduce_sum l.
Proof.
  induction 1 as [|h t Hh _ IH].
  - unfold JS.reduce_sum. simpl. lia.
  - rewrite reduce_sum_cons. lia.
Qed.

(** Prefix sums of non-negative extents grow with the index. *)
Lemma prefix_mono (l : list Z) (a b : nat) :
  Forall (fun h => 0 <= h) l -> (a <= b)%nat ->
  JS.reduce_sum (take a l) <= JS.reduce_sum (take b l).
Proof.
  intros Hl Hab. replace b with (a + (b - a))%nat by lia.
  rewrite <- take_take_drop, reduce_sum_app.
  pose proof (reduce_sum_nonneg (take (b - a) (drop a l))) as Hn.
  lapply Hn; [lia|]. apply Forall_take, Forall_drop. assumption.
Qed.

(** The first loop stops no later than an index whose trailing edge is past
    the offset. *)
Lemma find_start_before (scroll ov : Z) (rest : list Z) (i : nat) (acc : Z)
    (k : nat) :
  0 <= ov -> (k < length rest)%nat ->
  scroll < acc + JS.reduce_sum (take (S k) rest) ->
  find_start scroll ov rest i acc <= Z.of_nat i + Z.of_nat k.
Proof.
  intros Hov. revert i acc k.
  induction rest as [|h t IH]; intros i acc k Hk Hs; simpl in *; [lia|].
  rewrite reduce_sum_cons in Hs.
  destruct (Z.ltb_spec scroll (acc + h)) as [Hlt|Hge]; [lia|].
  destruct k as [|k].
  - rewrite take_0 in Hs. unfold JS.reduce_sum in Hs. simpl in Hs. lia.
  - specialize (IH (S i) (acc + h) k). lapply IH; [|lia].
    intros IH'. lapply IH'; lia.
Qed.

(** The second loop passes every index whose leading edges, up to it, are
    within the limit. *)
Lemma find_end_reaches (limit : Z) (rest : list Z) (i acc e : Z) (k : nat) :
  (k < length rest)%nat ->
  (forall j : nat, (j <= k)%nat -> acc + JS.reduce_sum (take j rest) <= limit) ->
  i + Z.of_nat k <= find_end limit rest i acc e.
Proof.
  revert i acc e k.
  induction rest as [|h t IH]; intros i acc e k Hk Hall; simpl in *; [lia|].
  pose proof (Hall 0%nat ltac:(lia)) as H0.
  unfold JS.reduce_sum in H0. simpl in H0.
  destruct (Z.ltb_spec limit acc) as [Hlt|Hge]; [lia|].
  destruct k as [|k].
  - pose proof (find_end_lower limit t (i + 1) (acc + h) i). lia.
  - specialize (IH (i + 1) (acc + h) i k). lapply IH; [|lia].
    intros IH'. lapply IH'; [lia|].
    intros j Hj. specialize (Hall (S j) ltac:(lia)).
    simpl in Hall. rewrite reduce_sum_cons in Hall. lia.
Qed.

End Coverage.

(** X3: no gap in the rendered coverage.  With non-negative extents,
    overscan, estimate and container height, every item whose extent
    interval meets the viewport (its leading edge before
    [scrollTop + containerHeight], its trailing edge after [scrollTop]) has
    its index inside the returned range. *)
Theorem visibleRange_covers_viewport {Item} (o : options Item) (scroll : Z)
    (hs : gmap nat Z) (i : nat) :
  let ih := itemHeights o hs in
  let r := visibleRange o scroll ih in
  Forall (fun h => 0 <= h) ih ->
  0 <= overscan o -> 0 <= estimatedItemHeight o -> 0 <= containerHeight o ->
  (i < length ih)%nat ->
  JS.reduce_sum (take i ih) < scroll + containerHeight o ->
  scroll < JS.reduce_sum (take (S i) ih) ->
  start r <= Z.of_nat i <= end_ r.
Proof.
  intros ih r Hnn Hov Hest Hch Hi Htop Hbot.
  assert (start r <= Z.of_nat i) as Hstart.
  { subst r. unfold visibleRange. cbn [start].
    pose proof (find_start_before scroll (overscan o) ih 0 0 i Hov Hi) as H.
    lapply H; lia. }
  split; [exact Hstart|].
  pose proof (find_start_nonneg scroll (overscan o) ih 0 0) as H0.
  subst r. unfold visibleRange in *. cbn [start end_] in *.
  set (s := find_start scroll (overscan o) ih 0 0) in *.
  set (limit := scroll + containerHeight o + overscan o * estimatedItemHeight o).
  assert (Z.of_nat i <= find_end limit (drop (Z.to_nat s) ih) s
                           (JS.reduce_sum (JS.slice0 ih s)) s) as He.
  { pose proof (find_end_reaches limit (drop (Z.to_nat s) ih) s
                  (JS.reduce_sum (JS.slice0 ih s)) s (i - Z.to_nat s)) as H.
    lapply H; [|rewrite length_drop; lia]. clear H. intros H.
    lapply H; [lia|].
    intros j Hj. unfold JS.slice0.
    rewrite <- reduce_sum_app, take_take_drop.
    pose proof (prefix_mono ih (Z.to_nat s + j) i Hnn ltac:(lia)).
    subst limit. nia. }
  unfold ih in Hi. rewrite itemHeights_length in Hi. lia.
Qed.

Lemma visibleRange_covers_viewport_witness :
  start (visibleRange Scenario.two_items 15 (itemHeights Scenario.two_items ∅))
  <= 1
  <= end_ (visibleRange Scenario.two_items 15 (itemHeights Scenario.two_items ∅)).
Proof.
  apply (visibleRange_covers_viewport Scenario.two_items 15 ∅ 1%nat).
  - vm_compute. repeat constructor; discriminate.
  - simpl. lia.
  - simpl. lia.
  - simpl. lia.
  - vm_compute. lia.
  - vm_compute. reflexivity.
  - vm_compute. reflexivity.
Defined.

(** * Uniform item height: the closed form *)

Section Uniform.

Lemma reduce_sum_replicate (k : nat) (h : Z) :
  JS.reduce_sum (replicate k h) = Z.of_nat k * h.
Proof.
  induction k as [|k IH].
  - reflexivity.
  - rewrite replicate_S, reduce_sum_cons, IH. lia.
Qed.

Lemma find_start_replicate (scroll ov h : Z) (k i : nat) :
  0 < h -> Z.of_nat i * h <= scroll -> scroll < (Z.of_nat i + Z.of_nat k) * h ->
  find_start scroll ov (replicate k h) i (Z.of_nat i * h)
  = Z.max 0 (scroll / h - ov).
Proof.
  intros Hh. revert i. induction k as [|k IH]; intros i Hlo Hhi; [lia|].
  simpl. destruct (Z.ltb_spec scroll (Z.of_nat i * h + h)) as [Hlt|Hge].
  - replace (scroll / h) with (Z.of_nat i); [reflexivity|].
    apply Z.div_unique with (r := scroll - Z.of_nat i * h); lia.
  - replace (Z.of_nat i * h + h) with (Z.of_nat (S i) * h) by lia.
    apply IH; lia.
Qed.

Lemma find_end_replicate (limit h : Z) (k : nat) (i e : Z) :
  0 < h -> (0 < k)%nat -> i * h <= limit ->
  find_end limit (replicate k h) i (i * h) e
  = Z.min (i + Z.of_nat k - 1) (limit / h).
Proof.
  intros Hh. revert i e. induction k as [|k IH]; intros i e Hk Hlo; [lia|].
  assert (i <= limit / h) as Hq by (apply Z.div_le_lower_bound; lia).
  simpl. destruct (Z.ltb_spec limit (i * h)) as [Hlt|_]; [lia|].
  destruct k as [|k]; [simpl; lia|].
  destruct (Z.le_gt_cases ((i + 1) * h) limit) as [Hnext|Hstop].
  - replace (i * h + h) with ((i + 1) * h) by lia.
    rewrite IH by lia. lia.
  - simpl. destruct (Z.ltb_spec limit (i * h + h)) as [_|Hge]; [|lia].
    assert (limit / h < i + 1) by (apply Z.div_lt_upper_bound; lia). lia.
Qed.

End Uniform.

(** X4: with a uniform [itemHeight = h > 0], a scroll offset inside the
    list ([0 <= scrollTop < n * h]) and non-negative overscan, estimate and
    container height, the loops compute the closed form
    [start = max(0, floor(scrollTop / h) - overscan)] and
    [end = min(n - 1, floor((scrollTop + containerHeight
                             + overscan * estimatedItemHeight) / h) + overscan)]. *)
Theorem uniform_range_closed_form {Item} (o : options Item) (scroll h : Z)
    (hs : gmap nat Z) :
  itemHeight o = Some h -> 0 < h ->
  0 <= scroll < Z.of_nat (length (items o)) * h ->
  0 <= overscan o -> 0 <= estimatedItemHeight o -> 0 <= containerHeight o ->
  visibleRange o scroll (itemHeights o hs)
  = Range (Z.max 0 (scroll / h - overscan o))
          (Z.min (Z.of_nat (length (items o)) - 1)
                 ((scroll + containerHeight o
                   + overscan o * estimatedItemHeight o) / h + overscan o)).
Proof.
  intros Hu Hh [Hs0 Hs1] Hov Hest Hch.
  set (n := length (items o)) in *.
  assert (itemHeights o hs = replicate n h) as ->.
  { unfold itemHeights. rewrite Hu. apply const_fmap. reflexivity. }
  unfold visibleRange. fold n.
  pose proof (find_start_replicate scroll (overscan o) h n 0 Hh) as Hst.
  change (Z.of_nat 0 * h) with 0 in Hst. rewrite Hst by lia. clear Hst.
  set (q := scroll / h).
  assert (0 <= q) by (apply Z.div_pos; lia).
  assert (q * h <= scroll) as Hq.
  { pose proof (Z.mul_div_le scroll h Hh). subst q. lia. }
  assert (q < Z.of_nat n) by (apply Z.div_lt_upper_bound; lia).
  set (s := Z.max 0 (q - overscan o)).
  assert (0 <= s <= q) as [Hs_lo Hs_hi] by lia.
  set (limit := scroll + containerHeight o + overscan o * estimatedItemHeight o).
  assert (scroll <= limit) by (subst limit; nia).
  unfold JS.slice0. rewrite take_replicate, drop_replicate, reduce_sum_replicate.
  replace (Z.of_nat (Z.to_nat s `min` n) * h) with (s * h) by lia.
  rewrite find_end_replicate by (try lia; nia).
  f_equal. lia.
Qed.

Lemma uniform_range_closed_form_witness :
  visibleRange Scenario.uniform_list 1000 (itemHeights Scenario.uniform_list ∅)
  = Range (Z.max 0 (1000 / 50 - 5))
          (Z.min (1000 - 1) ((1000 + 500 + 5 * 50) / 50 + 5)).
Proof.
  apply (uniform_range_closed_form Scenario.uniform_list 1000 50 ∅);
    simpl; try reflexivity; lia.
Defined.

(** * Scrolling to an index *)

Section ScrollTo.

Lemma prefix_positive_step (pre rest : list Z) (h : Z) (i : nat) :
  Forall (fun x => 0 < x) (pre ++ h :: rest) -> (length pre < i)%nat ->
  JS.reduce_sum pre + h <= JS.reduce_sum (take i (pre ++ h :: rest)).
Proof.
  intros Hpos Hi.
  replace (JS.reduce_sum pre + h)
    with (JS.reduce_sum (take (S (length pre)) (pre ++ h :: rest))).
  - apply prefix_mono; [|lia].
    eapply Forall_impl; [exact Hpos|]. simpl. intros. lia.
  - rewrite (take_S_r _ _ h), take_app_length, reduce_sum_app, reduce_sum_cons.
    + change (JS.reduce_sum []) with 0. lia.
    + rewrite lookup_app_r, Nat.sub_diag by lia. reflexivity.
Qed.

Lemma find_start_at_prefix (ov : Z) (rest pre : list Z) (i : nat) :
  Forall (fun x => 0 < x) (pre ++ rest) ->
  (length pre <= i < length (pre ++ rest))%nat ->
  find_start (JS.reduce_sum (take i (pre ++ rest))) ov rest (length pre)
             (JS.reduce_sum pre)
  = Z.max 0 (Z.of_nat i - ov).
Proof.
  revert pre. induction rest as [|h t IH]; intros pre Hpos [Hlo Hhi].
  - rewrite app_nil_r in Hhi. lia.
  - simpl. destruct (decide (length pre = i)) as [<-|Hne].
    + rewrite take_app_length.
      assert (0 < h).
      { rewrite Forall_app, Forall_cons in Hpos. tauto. }
      destruct (Z.ltb_spec (JS.reduce_sum pre) (JS.reduce_sum pre + h)); [|lia].
      reflexivity.
    + pose proof (prefix_positive_step pre t h i Hpos ltac:(lia)) as Hstep.
      destruct (Z.ltb_spec (JS.reduce_sum (take i (pre ++ h :: t)))
                           (JS.reduce_sum pre + h)); [lia|].
      specialize (IH (pre ++ [h])).
      rewrite <- app_assoc, length_app, reduce_sum_app, reduce_sum_cons in IH.
      simpl in IH.
      replace (length pre + 1)%nat with (S (length pre)) in IH by lia.
      change (JS.reduce_sum []) with 0 in IH. rewrite Z.add_0_r in IH.
      apply IH; [assumption|lia].
Qed.

Lemma slice_prefix (ih : list Z) (idx : Z) :
  0 <= idx -> ListView.slice ih 0 idx = take (Z.to_nat idx) ih.
Proof.
  intros Hidx. unfold ListView.slice. simpl.
  replace (idx <? 0) with false by (symmetry; apply Z.ltb_ge; lia).
  rewrite (Z.min_l 0) by lia. simpl. rewrite Z.sub_0_r.
  destruct (Z.min_spec idx (Z.of_nat (length ih))) as [[_ ->]|[Hge ->]];
    [reflexivity|].
  change (Z.to_nat 0) with 0%nat. rewrite drop_0, Nat2Z.id.
  rewrite (take_ge ih (length ih)) by lia.
  rewrite take_ge by lia. reflexivity.
Qed.

End ScrollTo.

(** X5: [scrollToIndex] does nothing on a null ref; otherwise it assigns
    the sum of the extents below [index] for [0 <= index], which is
    [totalHeight] as soon as [index >= items.length]; and [scrollToTop]
    assigns 0. *)
Theorem scrollToIndex_target (ih : list Z) (index top : Z) :
  ListView.scrollToIndex ih index None = None
  /\ ListView.scrollToTop None = None
  /\ ListView.scrollToTop (Some top) = Some 0
  /\ (0 <= index ->
      ListView.scrollToIndex ih index (Some top)
      = Some (JS.reduce_sum (take (Z.to_nat index) ih)))
  /\ (Z.of_nat (length ih) <= index ->
      ListView.scrollToIndex ih index (Some top) = Some (totalHeight ih)).
Proof.
  repeat split; try reflexivity.
  - intros Hidx. unfold ListView.scrollToIndex.
    rewrite slice_prefix by assumption. reflexivity.
  - intros Hidx. unfold ListView.scrollToIndex, totalHeight.
    rewrite slice_prefix by lia. rewrite take_ge by lia. reflexivity.
Qed.

(** X6: scrolling to an index and computing the range back.  With strictly
    positive extents and a non-negative overscan, at the offset that
    [scrollToIndex(index)] assigns for a valid [index] the range starts at
    [max(0, index - overscan)]: the target item is the first one past the
    overscan rows. *)
Theorem scrollToIndex_round_trip {Item} (o : options Item) (hs : gmap nat Z)
    (index top target : Z) :
  let ih := itemHeights o hs in
  Forall (fun h => 0 < h) ih ->
  0 <= index < Z.of_nat (length ih) ->
  ListView.scrollToIndex ih index (Some top) = Some target ->
  start (visibleRange o target ih) = Z.max 0 (index - overscan o).
Proof.
  intros ih Hpos [Hlo Hhi] Htarget.
  unfold ListView.scrollToIndex in Htarget.
  rewrite slice_prefix in Htarget by assumption. injection Htarget as <-.
  unfold visibleRange. cbn [start].
  pose proof (find_start_at_prefix (overscan o) ih [] (Z.to_nat index)) as H.
  simpl in H. rewrite Z2Nat.id in H by lia.
  apply H; [assumption|lia].
Qed.

Lemma scrollToIndex_round_trip_witness :
  start (visibleRange Scenario.two_items 10 (itemHeights Scenario.two_items ∅))
  = Z.max 0 (1 - 0).
Proof.
  apply (scrollToIndex_round_trip Scenario.two_items ∅ 1 0 10).
  - vm_compute. repeat constructor.
  - vm_compute. split; [discriminate|reflexivity].
  - vm_compute. reflexivity.
Defined.

(** * Measurements and the extents *)

Section Measure.

Lemma reduce_sum_insert (l : list Z) (i : nat) (old new : Z) :
  l !! i = Some old ->
  JS.reduce_sum (<[i := new]> l) = JS.reduce_sum l - old + new.
Proof.
  intros Hi. pose proof (lookup_lt_Some _ _ _ Hi) as Hlt.
  rewrite insert_take_drop by assumption.
  rewrite <- (take_drop_middle l i old Hi) at 3.
  rewrite !reduce_sum_app, !reduce_sum_cons. lia.
Qed.

End Measure.

(** X7: when neither [itemHeight] nor [getItemHeight] is configured,
    reporting a non-zero height for an index replaces the extent of that
    index and no other; the total height moves by the difference; a report
    for an index past the end of the list changes no derived value. *)
Theorem measureItem_updates_one_extent {Item} (o : options Item) (st : state)
    (index : nat) (height : Z) :
  itemHeight o = None -> getItemHeight o = None -> height <> 0 ->
  let ih := itemHeights o (heights st) in
  let ih' := itemHeights o (heights (measureItem index (Some height) st)) in
  ih' = <[index := height]> ih
  /\ (forall old, ih !! index = Some old ->
        totalHeight ih' = totalHeight ih - old + height)
  /\ ((length (items o) <= index)%nat ->
      render o (measureItem index (Some height) st) = render o st).
Proof.
  intros Eu Ef Hne ih ih'.
  assert (ih' = <[index := height]> ih) as Heq.
  { subst ih ih'. unfold itemHeights. rewrite Eu, Ef. simpl.
    apply list_eq. intros j.
    destruct (decide (index = j)) as [->|Hij].
    - rewrite list_lookup_imap, lookup_insert_eq.
      destruct (items o !! j) as [x|] eqn:Ej.
      + rewrite list_lookup_insert_eq.
        * simpl. destruct (Z.eqb_spec height 0); [contradiction|reflexivity].
        * rewrite length_imap. eapply lookup_lt_Some; eauto.
      + simpl. symmetry. apply lookup_ge_None. rewrite length_insert, length_imap.
        apply lookup_ge_None in Ej. exact Ej.
    - rewrite list_lookup_insert_ne by assumption.
      rewrite !list_lookup_imap, lookup_insert_ne by assumption. reflexivity. }
  split; [exact Heq|]. split.
  - intros old Hold. rewrite Heq. unfold totalHeight.
    apply reduce_sum_insert. assumption.
  - intros Hout. unfold render. change (scrollTop (measureItem index (Some height) st))
      with (scrollTop st). fold ih ih'.
    rewrite Heq, list_insert_ge; [reflexivity|].
    subst ih. rewrite itemHeights_length. assumption.
Qed.

Lemma measureItem_updates_one_extent_witness :
  itemHeights Scenario.measured_list
    (heights (measureItem 1%nat (Some 30) (State 0 ∅)))
  = <[1%nat := 30]> (itemHeights Scenario.measured_list ∅).
Proof.
  apply (measureItem_updates_one_extent Scenario.measured_list (State 0 ∅)
           1%nat 30); [reflexivity|reflexivity|discriminate].
Defined.

(** X8: when a uniform [itemHeight] or a [getItemHeight] function is
    configured, no call of [measureItem] changes the range, the total
    height or the offset. *)
Theorem measureItem_ignored_when_configured {Item} (o : options Item)
    (st : state) (index : nat) (element : option Z) :
  is_Some (itemHeight o) \/ is_Some (getItemHeight o) ->
  render o (measureItem index element st) = render o st.
Proof.
  intros Hcfg. destruct element as [height|]; [|reflexivity].
  unfold render. simpl.
  assert (forall hs1 hs2, itemHeights o hs1 = itemHeights o hs2) as Hsame.
  { intros hs1 hs2. unfold itemHeights.
    destruct (itemHeight o); [reflexivity|].
    destruct (getItemHeight o); [reflexivity|].
    destruct Hcfg as [[? ?]|[? ?]]; discriminate. }
  rewrite (Hsame _ (heights st)). reflexivity.
Qed.

Lemma measureItem_ignored_when_configured_witness :
  render Scenario.two_items (measureItem 0%nat (Some 99) (State 15 ∅))
  = render Scenario.two_items (State 15 ∅).
Proof.
  apply (measureItem_ignored_when_configured Scenario.two_items).
  left. eexists. reflexivity.
Defined.

(** * The grid *)

Section GridFacts.
Import GridView.
Context {Item : Type}.
Implicit Types (o : GridView.options Item) (st : GridView.state)
  (d : GridView.dimensions).

Lemma ceil_div_bounds (n c : Z) :
  0 < c -> (ceil_div n c - 1) * c < n <= ceil_div n c * c.
Proof.
  intros Hc. unfold ceil_div.
  pose proof (Z.mul_div_le (- n) c Hc).
  pose proof (Z.mul_succ_div_gt (- n) c Hc). lia.
Qed.

Lemma gridDimensions_Some o d :
  gridDimensions o = Some d ->
  cols d <> 0
  /\ rows d = ceil_div (Z.of_nat (length (items o))) (cols d)
  /\ totalWidth d = cols d * itemWidth o + (cols d - 1) * gap o
  /\ totalHeight d = rows d * itemHeight o + (rows d - 1) * gap o.
Proof.
  unfold gridDimensions.
  destruct (Grid.cols _ _ _ _) as [c| | |]; try discriminate.
  destruct (Z.eqb_spec c 0); [discriminate|].
  intros [= <-]. simpl. auto.
Qed.

(** What the two loops run through. *)
Lemma for_range_elem (cap v : Z) (x y : JS.num) :
  v ∈ for_range (Math_max0 x) (Math_min cap y) -> 0 <= v <= cap.
Proof.
  destruct x, y; simpl; rewrite ?elem_of_seqZ, ?elem_of_nil; lia.
Qed.

Lemma seqZ_sorted (m n : Z) : StronglySorted Z.lt (seqZ m n).
Proof.
  unfold seqZ. generalize (Z.to_nat n) as len. generalize 0%nat as from.
  intros from len. revert from.
  induction len as [|len IH]; intros from; simpl; constructor; [apply IH|].
  apply Forall_forall. intros v Hv.
  apply list_elem_of_fmap in Hv as (j & -> & Hj).
  apply elem_of_seq in Hj. lia.
Qed.

Lemma for_range_sorted (from to : JS.num) :
  StronglySorted Z.lt (for_range from to).
Proof.
  destruct from, to; simpl; try constructor. apply seqZ_sorted.
Qed.

Lemma bind_increasing {B} (key : B -> Z) (f : Z -> list B) (l : list Z) :
  StronglySorted Z.lt l ->
  (forall a, a ∈ l -> StronglySorted Z.lt (key <$> f a)) ->
  (forall a a' b b', a ∈ l -> a' ∈ l -> a < a' -> b ∈ f a -> b' ∈ f a' ->
     key b < key b') ->
  StronglySorted Z.lt (key <$> (l ≫= f)).
Proof.
  induction 1 as [|a l Hl IH Ha]; intros Hin Hacross; [constructor|].
  rewrite bind_cons, fmap_app. apply StronglySorted_app. split; [|split].
  - intros k1 k2 H1 H2.
    apply list_elem_of_fmap in H1 as (b & -> & Hb).
    apply list_elem_of_fmap in H2 as (b' & -> & Hb').
    apply list_elem_of_bind in Hb' as (a' & Hb' & Ha').
    apply (Hacross a a'); auto.
    + apply list_elem_of_here.
    + apply list_elem_of_further. assumption.
    + rewrite Forall_forall in Ha. apply Ha. assumption.
  - apply Hin, list_elem_of_here.
  - apply IH.
    + intros a' Ha'. apply Hin, list_elem_of_further. assumption.
    + intros a1 a2 b b' H1 H2. apply Hacross; apply list_elem_of_further; assumption.
Qed.

(** Membership in [visibleItems], spelled out. *)
Lemma visibleItems_elem o d (w : window) (c : cell) :
  c ∈ visibleItems o d w <->
  exists row col,
    row ∈ for_range (startRow w) (endRow w)
    /\ col ∈ for_range (startCol w) (endCol w)
    /\ row * cols d + col < Z.of_nat (length (items o))
    /\ c = Cell (item_at (items o) (row * cols d + col)) (row * cols d + col)
                row col (col * (itemWidth o + gap o))
                (row * (itemHeight o + gap o)).
Proof.
  unfold visibleItems. rewrite list_elem_of_bind. split.
  - intros (row & Hc & Hrow). apply list_elem_of_bind in Hc as (col & Hc & Hcol).
    exists row, col.
    destruct (Z.ltb_spec (row * cols d + col) (Z.of_nat (length (items o))));
      [|apply elem_of_nil in Hc; contradiction].
    apply list_elem_of_singleton in Hc. auto.
  - intros (row & col & Hrow & Hcol & Hlt & ->).
    exists row. split; [|assumption].
    apply list_elem_of_bind. exists col. split; [|assumption].
    destruct (Z.ltb_spec (row * cols d + col) (Z.of_nat (length (items o))));
      [apply list_elem_of_singleton; reflexivity|lia].
Qed.

End GridFacts.

(** X9: the computed grid fits.  When no column count is passed (or 0 is),
    [itemWidth + gap] is positive and the container is at least one cell
    wide, there is at least one column, the columns with the gaps between
    them are no wider than the container, and one more column would not
    fit. *)
Theorem grid_fits_container {Item} (o : GridView.options Item) :
  GridView.columns o = None \/ GridView.columns o = Some 0 ->
  0 < GridView.itemWidth o + GridView.gap o ->
  GridView.itemWidth o <= GridView.containerWidth o ->
  exists d,
    GridView.gridDimensions o = Some d
    /\ 1 <= GridView.cols d
    /\ GridView.totalWidth d <= GridView.containerWidth o
    /\ GridView.containerWidth o
       < GridView.totalWidth d + GridView.gap o + GridView.itemWidth o.
Proof.
  intros Hcols Hpos Hwide.
  set (q := (GridView.containerWidth o + GridView.gap o)
            / (GridView.itemWidth o + GridView.gap o)).
  assert (Grid.cols (GridView.columns o) (GridView.containerWidth o)
            (GridView.itemWidth o) (GridView.gap o) = JS.Fin q) as Hc.
  { unfold Grid.cols, JS.floor_div.
    destruct (Z.eqb_spec (GridView.itemWidth o + GridView.gap o) 0); [lia|].
    destruct Hcols as [-> | ->]; reflexivity. }
  assert (1 <= q) as Hq.
  { subst q. apply Z.div_le_lower_bound; lia. }
  pose proof (Z.mul_div_le (GridView.containerWidth o + GridView.gap o)
                _ Hpos) as Hlo.
  pose proof (Z.mul_succ_div_gt (GridView.containerWidth o + GridView.gap o)
                _ Hpos) as Hhi.
  fold q in Hlo, Hhi.
  unfold GridView.gridDimensions. rewrite Hc.
  destruct (Z.eqb_spec q 0); [lia|].
  eexists. split; [reflexivity|]. simpl. nia.
Qed.

Lemma grid_fits_container_witness :
  exists d,
    GridView.gridDimensions GridScenario.gallery = Some d
    /\ 1 <= GridView.cols d
    /\ GridView.totalWidth d <= 430
    /\ 430 < GridView.totalWidth d + 10 + 100.
Proof.
  apply (grid_fits_container GridScenario.gallery).
  - left. reflexivity.
  - simpl. lia.
  - simpl. lia.
Defined.

(** X10: with a positive column count [rows] is the least number of rows
    that holds every item, [(rows - 1) * cols < items.length <= rows * cols];
    on an empty list it is 0 and [totalHeight] is [-gap]. *)
Theorem grid_rows_hold_all_items {Item} (o : GridView.options Item)
    (d : GridView.dimensions) :
  GridView.gridDimensions o = Some d -> 0 < GridView.cols d ->
  (GridView.rows d - 1) * GridView.cols d
    < Z.of_nat (length (GridView.items o))
    <= GridView.rows d * GridView.cols d
  /\ (GridView.items o = [] ->
      GridView.rows d = 0 /\ GridView.totalHeight d = - GridView.gap o).
Proof.
  intros Hd Hc.
  destruct (gridDimensions_Some o d Hd) as (_ & Hrows & _ & Hth).
  pose proof (ceil_div_bounds (Z.of_nat (length (GridView.items o)))
                (GridView.cols d) Hc) as Hb.
  rewrite <- Hrows in Hb. split; [exact Hb|].
  intros Hnil. rewrite Hnil in Hb. simpl in Hb.
  assert (GridView.rows d = 0) as H0 by nia.
  split; [exact H0|]. rewrite Hth, H0. lia.
Qed.

Lemma grid_rows_hold_all_items_witness :
  exists d,
    GridView.gridDimensions GridScenario.gallery = Some d
    /\ (GridView.rows d - 1) * GridView.cols d < 23
       <= GridView.rows d * GridView.cols d.
Proof.
  eexists. split; [reflexivity|].
  apply (grid_rows_hold_all_items GridScenario.gallery); [reflexivity|].
  vm_compute. reflexivity.
Defined.

(** X11: every entry of the grid's [visibleItems] is a cell of the grid
    that holds an item: its row and column are inside the grid, its index
    is [row * cols + col] and addresses an existing item, which is the
    entry's [item], and it is placed at [x = col * (itemWidth + gap)],
    [y = row * (itemHeight + gap)].  The entries come in strictly
    increasing index order, so no item is listed twice. *)
Theorem grid_visibleItems_well_formed {Item} (o : GridView.options Item)
    (st : GridView.state) (d : GridView.dimensions) :
  let vis := GridView.visibleItems o d (GridView.visibleRange o st d) in
  (forall c, c ∈ vis ->
     0 <= GridView.cell_row c < GridView.rows d
     /\ 0 <= GridView.cell_col c < GridView.cols d
     /\ GridView.cell_index c
        = GridView.cell_row c * GridView.cols d + GridView.cell_col c
     /\ 0 <= GridView.cell_index c < Z.of_nat (length (GridView.items o))
     /\ is_Some (GridView.cell_item c)
     /\ GridView.cell_item c
        = GridView.items o !! Z.to_nat (GridView.cell_index c)
     /\ GridView.cell_x c
        = GridView.cell_col c * (GridView.itemWidth o + GridView.gap o)
     /\ GridView.cell_y c
        = GridView.cell_row c * (GridView.itemHeight o + GridView.gap o))
  /\ StronglySorted Z.lt (GridView.cell_index <$> vis).
Proof.
  intros vis. split.
  - intros c Hc. apply visibleItems_elem in Hc
      as (row & col & Hrow & Hcol & Hlt & ->).
    apply for_range_elem in Hrow, Hcol. simpl.
    assert (0 <= row * GridView.cols d + col) as Hidx by nia.
    assert (GridView.item_at (GridView.items o) (row * GridView.cols d + col)
            = GridView.items o !! Z.to_nat (row * GridView.cols d + col)) as Hat.
    { unfold GridView.item_at.
      destruct (Z.ltb_spec (row * GridView.cols d + col) 0); [lia|reflexivity]. }
    repeat split; try lia; try assumption.
    rewrite Hat. apply lookup_lt_is_Some. lia.
  - subst vis. unfold GridView.visibleItems.
    apply bind_increasing.
    + apply for_range_sorted.
    + intros row Hrow. apply bind_increasing.
      * apply for_range_sorted.
      * intros col _.
        destruct (_ <? _); repeat constructor.
      * intros col col' b b' _ _ Hlt Hb Hb'.
        destruct (_ <? _) in Hb; [|apply elem_of_nil in Hb; contradiction].
        destruct (_ <? _) in Hb'; [|apply elem_of_nil in Hb'; contradiction].
        apply list_elem_of_singleton in Hb, Hb'. subst b b'. simpl. lia.
    + intros row row' b b' Hrow Hrow' Hlt Hb Hb'.
      apply list_elem_of_bind in Hb as (col & Hb & Hcol).
      apply list_elem_of_bind in Hb' as (col' & Hb' & Hcol').
      destruct (_ <? _) in Hb; [|apply elem_of_nil in Hb; contradiction].
      destruct (_ <? _) in Hb'; [|apply elem_of_nil in Hb'; contradiction].
      apply list_elem_of_singleton in Hb, Hb'. subst b b'. simpl.
      unfold GridView.visibleRange in Hcol, Hcol'. simpl in Hcol, Hcol'.
      apply for_range_elem in Hcol, Hcol'. nia.
Qed.

(** X12: the grid leaves no visible cell out.  With a positive column
    count, positive cell sizes and non-negative gap and overscan, every
    item whose cell meets the viewport (in both directions: leading edge
    not past the far side, trailing edge past the near side) has an entry in
    [visibleItems]. *)
Theorem grid_covers_viewport {Item} (o : GridView.options Item)
    (st : GridView.state) (d : GridView.dimensions) (i : nat) :
  GridView.gridDimensions o = Some d -> 0 < GridView.cols d ->
  0 < GridView.itemWidth o -> 0 < GridView.itemHeight o ->
  0 <= GridView.gap o -> 0 <= GridView.overscan o ->
  (i < length (GridView.items o))%nat ->
  let row := Z.of_nat i / GridView.cols d in
  let col := Z.of_nat i mod GridView.cols d in
  let x := col * (GridView.itemWidth o + GridView.gap o) in
  let y := row * (GridView.itemHeight o + GridView.gap o) in
  y <= GridView.scrollTop st + GridView.containerHeight o ->
  GridView.scrollTop st < y + GridView.itemHeight o ->
  x <= GridView.scrollLeft st + GridView.containerWidth o ->
  GridView.scrollLeft st < x + GridView.itemWidth o ->
  GridView.Cell (GridView.items o !! i) (Z.of_nat i) row col x y
  ∈ GridView.visibleItems o d (GridView.visibleRange o st d).
Proof.
  intros Hd Hc Hw Hh Hg Hov Hi row col x y Htop Hbot Hleft Hright.
  destruct (gridDimensions_Some o d Hd) as (_ & Hrows & _ & _).
  pose proof (ceil_div_bounds (Z.of_nat (length (GridView.items o)))
                (GridView.cols d) Hc) as Hb.
  rewrite <- Hrows in Hb.
  pose proof (Z.div_mod (Z.of_nat i) (GridView.cols d) ltac:(lia)) as Hdm.
  pose proof (Z.mod_pos_bound (Z.of_nat i) (GridView.cols d) Hc) as Hmod.
  fold row col in Hdm, Hmod.
  assert (0 <= row) as Hrow0 by (apply Z.div_pos; lia).
  assert (row < GridView.rows d) as Hrow1 by nia.
  assert (row * GridView.cols d + col = Z.of_nat i) as Hidx by lia.
  assert (forall a b k ov cap v,
            0 < b -> 0 <= ov -> 0 <= v <= cap ->
            v * b <= a + k -> a < (v + 1) * b ->
            v ∈ GridView.for_range
                  (GridView.Math_max0 (GridView.minus (JS.floor_div a b) ov))
                  (GridView.Math_min cap
                     (GridView.plus (JS.floor_div (a + k) b) ov))) as Hin.
  { intros a b k ov cap v Hb0 Hov0 Hv Hlo Hhi. unfold JS.floor_div.
    destruct (Z.eqb_spec b 0); [lia|]. simpl. apply elem_of_seqZ.
    assert (a / b <= v) by (apply Z.lt_succ_r, Z.div_lt_upper_bound; lia).
    assert (v <= (a + k) / b) by (apply Z.div_le_lower_bound; lia).
    lia. }
  apply visibleItems_elem. exists row, col. rewrite Hidx.
  split; [|split; [|split]].
  - apply Hin; subst y; try lia; nia.
  - apply Hin; subst x; try lia; nia.
  - lia.
  - unfold GridView.item_at.
    destruct (Z.ltb_spec (Z.of_nat i) 0); [lia|]. rewrite Nat2Z.id.
    reflexivity.
Qed.

Lemma grid_covers_viewport_witness :
  GridView.Cell (Some tt) 9 2 1 110 180
  ∈ GridView.visibleItems GridScenario.gallery
      (GridView.Dimensions 4 6 430 530)
      (GridView.visibleRange GridScenario.gallery (GridView.State 150 0)
         (GridView.Dimensions 4 6 430 530)).
Proof.
  apply (grid_covers_viewport GridScenario.gallery (GridView.State 150 0)
           (GridView.Dimensions 4 6 430 530) 9%nat);
    first [ reflexivity | discriminate | (simpl; lia)
          | (vm_compute; first [reflexivity | discriminate]) ].
Defined.

(** * The masonry layout *)

Section MasonryFacts.
Import Masonry.
Context {Item : Type}.
Implicit Types (items rest : list Item) (getItemHeight : Item -> nat -> Z).

Lemma pack_cons columnWidth gap getItemHeight item rest index chs :
  pack columnWidth gap getItemHeight (item :: rest) index chs
  = (place columnWidth gap chs (getItemHeight item index)).1
    :: pack columnWidth gap getItemHeight rest (S index)
         (place columnWidth gap chs (getItemHeight item index)).2.
Proof.
  simpl. destruct (place columnWidth gap chs (getItemHeight item index)).
  reflexivity.
Qed.

Lemma place_height columnWidth gap chs height :
  pos_height (place columnWidth gap chs height).1 = height.
Proof. reflexivity. Qed.

Lemma pack_length columnWidth gap getItemHeight rest index chs :
  length (pack columnWidth gap getItemHeight rest index chs) = length rest.
Proof.
  revert index chs. induction rest as [|item rest IH]; intros index chs.
  - reflexivity.
  - rewrite pack_cons. simpl. rewrite IH. reflexivity.
Qed.

Lemma pack_lookup_height columnWidth gap getItemHeight rest index chs i item :
  rest !! i = Some item ->
  exists p, pack columnWidth gap getItemHeight rest index chs !! i = Some p
            /\ pos_height p = getItemHeight item (index + i)%nat.
Proof.
  revert index chs i.
  induction rest as [|x rest IH]; intros index chs i Hi; [discriminate|].
  rewrite pack_cons. destruct i as [|i]; simpl in *.
  - injection Hi as ->. eexists. split; [reflexivity|].
    rewrite Nat.add_0_r. reflexivity.
  - destruct (IH (S index) (place columnWidth gap chs (getItemHeight x index)).2
                i Hi) as (p & Hp & Hh).
    exists p. split; [exact Hp|]. rewrite Hh. f_equal. lia.
Qed.

(** Without a column nothing is placed. *)
Lemma pack_no_columns columnWidth gap getItemHeight rest index :
  Forall (fun p => pos_y p = None /\ pos_x p = - (columnWidth + gap))
         (pack columnWidth gap getItemHeight rest index []).
Proof.
  revert index. induction rest as [|x rest IH]; intros index; [constructor|].
  rewrite pack_cons. constructor; [|apply IH].
  simpl. split; [reflexivity|lia].
Qed.

Lemma totalHeight_fold_None (ps : list position) :
  foldl (fun acc q => a ← acc; b ← bottom q; Some (Z.max a b)) None ps = None.
Proof. induction ps as [|p ps IH]; [reflexivity|exact IH]. Qed.

(** [Math.max] over the bottoms, from a running maximum [t0]. *)
Lemma totalHeight_fold (ps : list position) (t0 : Z) :
  Forall (fun p => is_Some (pos_y p)) ps ->
  exists t,
    foldl (fun acc q => a ← acc; b ← bottom q; Some (Z.max a b)) (Some t0) ps
    = Some t
    /\ t0 <= t
    /\ (forall p y, p ∈ ps -> pos_y p = Some y -> y + pos_height p <= t)
    /\ (t = t0 \/ exists p y, p ∈ ps /\ pos_y p = Some y /\ y + pos_height p = t).
Proof.
  intros Hall. revert t0.
  induction Hall as [|p ps [y Hy] _ IH]; intros t0.
  - exists t0. split; [reflexivity|]. split; [lia|]. split; [|left; reflexivity].
    intros p y Hp. apply elem_of_nil in Hp. contradiction.
  - simpl. unfold bottom at 2. rewrite Hy. simpl.
    destruct (IH (Z.max t0 (y + pos_height p))) as (t & Ht & Hge & Hmax & Hatt).
    exists t. split; [exact Ht|]. split; [lia|]. split.
    + intros q yq Hq Hyq. apply elem_of_cons in Hq as [->|Hq].
      * rewrite Hy in Hyq. injection Hyq as <-. lia.
      * eapply Hmax; eauto.
    + destruct Hatt as [->|(q & yq & Hq & Hyq & Hqt)].
      * destruct (Z.max_spec t0 (y + pos_height p)) as [[_ ->]|[_ ->]].
        -- right. exists p, y. split; [apply list_elem_of_here|]. auto.
        -- left. reflexivity.
      * right. exists q, yq. split; [apply list_elem_of_further; exact Hq|]. auto.
Qed.

End MasonryFacts.

(** X13: the positions effect throws a [RangeError] when
    [columnWidth + gap] is 0 and when the column count
    [floor((containerWidth + gap) / (columnWidth + gap))] is negative or
    2^32 and more, [new Array] refusing each of these; and whenever it
    does produce positions, the column count is a valid array length and
    there is one position per item, in item order, each carrying the
    height [getItemHeight(item, index)].  (An engine may also refuse to
    spread a very long [columnHeights] into [Math.min]; that limit is not
    modelled, and no success is asserted here.) *)
Theorem masonry_positions_range_error {Item} (items : list Item)
    (containerWidth columnWidth gap : Z) (getItemHeight : Item -> nat -> Z) :
  let q := (containerWidth + gap) / (columnWidth + gap) in
  let result :=
    Masonry.positions items (Masonry.columns containerWidth columnWidth gap)
                      columnWidth gap getItemHeight in
  (columnWidth + gap = 0 -> result = JS.Throw JS.RangeError)
  /\ (columnWidth + gap <> 0 -> q < 0 \/ 2 ^ 32 <= q ->
      result = JS.Throw JS.RangeError)
  /\ (forall ps,
        result = JS.Ok ps ->
        columnWidth + gap <> 0 /\ 0 <= q < 2 ^ 32
        /\ length ps = length items
        /\ forall i item, items !! i = Some item ->
             exists p, ps !! i = Some p
                       /\ Masonry.pos_height p = getItemHeight item i).
Proof.
  intros q result. subst result.
  unfold Masonry.positions, Masonry.columns, JS.floor_div.
  split; [|split].
  - intros ->. simpl. destruct (0 <? _); [reflexivity|].
    destruct (_ <? 0); reflexivity.
  - intros Hne Hq. destruct (Z.eqb_spec (columnWidth + gap) 0); [contradiction|].
    simpl. fold q.
    destruct (Z.leb_spec 0 q); destruct (Z.ltb_spec q (2 ^ 32)); simpl;
      try reflexivity; lia.
  - intros ps.
    destruct (Z.eqb_spec (columnWidth + gap) 0) as [Hz|Hne].
    { destruct (0 <? _); [discriminate|]. destruct (_ <? 0); discriminate. }
    simpl. fold q.
    destruct (Z.leb_spec 0 q); destruct (Z.ltb_spec q (2 ^ 32)); simpl;
      try discriminate.
    intros [= <-]. split; [exact Hne|]. split; [lia|].
    split; [apply pack_length|].
    intros i item Hi. apply (pack_lookup_height _ _ _ _ 0%nat _ _ _ Hi).
Qed.

(** X14: in a container narrower than one column (zero columns) the pass
    still produces one position per item, but none has a [y]; the total
    height of a non-empty list is then NaN, and no position passes the
    visibility test, whatever the viewport. *)
Theorem masonry_without_columns {Item} (items : list Item)
    (containerWidth columnWidth gap : Z) (getItemHeight : Item -> nat -> Z) :
  0 <= containerWidth + gap < columnWidth + gap ->
  exists ps,
    Masonry.positions items (Masonry.columns containerWidth columnWidth gap)
                      columnWidth gap getItemHeight = JS.Ok ps
    /\ length ps = length items
    /\ Forall (fun p => Masonry.pos_y p = None) ps
    /\ (items <> [] -> Masonry.totalHeight ps = None)
    /\ forall scrollTop containerBottom overscan i,
         Masonry.in_window scrollTop containerBottom overscan (ps !! i) = false.
Proof.
  intros Hnarrow.
  assert (Masonry.columns containerWidth columnWidth gap = JS.Fin 0) as Hc.
  { unfold Masonry.columns, JS.floor_div.
    destruct (Z.eqb_spec (columnWidth + gap) 0); [lia|].
    rewrite Z.div_small by assumption. reflexivity. }
  rewrite Hc. unfold Masonry.positions. simpl.
  pose proof (pack_no_columns columnWidth gap getItemHeight items 0) as Hall.
  set (ps := Masonry.pack columnWidth gap getItemHeight items 0 []) in *.
  exists ps. split; [reflexivity|]. split; [apply pack_length|].
  assert (Forall (fun p => Masonry.pos_y p = None) ps) as Hy.
  { eapply Forall_impl; [exact Hall|]. simpl. tauto. }
  split; [exact Hy|]. split.
  - intros Hne. assert (ps <> []) as Hps.
    { intros E. apply Hne, length_zero_iff_nil.
      rewrite <- (pack_length columnWidth gap getItemHeight items 0 []).
      fold ps. rewrite E. reflexivity. }
    destruct ps as [|p ps']; [congruence|].
    apply Forall_cons in Hy as [Hp _]. unfold Masonry.totalHeight, Masonry.bottom.
    rewrite Hp. apply totalHeight_fold_None.
  - intros scrollTop containerBottom overscan i. unfold Masonry.in_window.
    destruct (ps !! i) as [p|] eqn:E; [|reflexivity].
    rewrite Forall_lookup in Hy. rewrite (Hy i p E). reflexivity.
Qed.

Lemma masonry_without_columns_witness :
  exists ps,
    Masonry.positions [tt; tt] (Masonry.columns 50 100 10) 100 10
                      Scenario.five_heights = JS.Ok ps
    /\ Masonry.totalHeight ps = None.
Proof.
  destruct (masonry_without_columns [tt; tt] 50 100 10 Scenario.five_heights)
    as (ps & Hps & _ & _ & Hnan & _); [lia|].
  exists ps. split; [exact Hps|]. apply Hnan. discriminate.
Defined.

Section MasonryInvariant.
Import Masonry.
Context {Item : Type}.
Implicit Types (rest : list Item) (getItemHeight : Item -> nat -> Z).

(** What the pass keeps, from any non-empty array of column heights:
    every position sits in a column, at or below that column's height at
    the start, and two positions of one column are a gap apart. *)
Lemma pack_invariant columnWidth gap getItemHeight rest index chs :
  columnWidth + gap <> 0 -> chs <> [] ->
  (forall k item, rest !! k = Some item ->
     0 <= getItemHeight item (index + k)%nat + gap) ->
  let ps := pack columnWidth gap getItemHeight rest index chs in
  (forall i p, ps !! i = Some p ->
     exists (c : nat) base y,
       chs !! c = Some base /\ pos_x p = Z.of_nat c * (columnWidth + gap)
       /\ pos_y p = Some y /\ base <= y)
  /\ (forall (i j : nat) p q y1 y2,
        (i < j)%nat -> ps !! i = Some p -> ps !! j = Some q ->
        pos_x p = pos_x q -> pos_y p = Some y1 -> pos_y q = Some y2 ->
        y1 + pos_height p + gap <= y2).
Proof.
  intros HW. revert index chs.
  induction rest as [|item rest IH]; intros index chs Hne Hh ps.
  - subst ps. simpl. split; intros; discriminate.
  - subst ps. rewrite pack_cons.
    destruct (place_greedy columnWidth gap chs (getItemHeight item index) Hne)
      as (c0 & m & Hc0 & Hmin & _ & Hplace).
    rewrite Hplace. cbn [fst snd].
    set (h0 := getItemHeight item index) in *.
    set (chs' := <[c0 := m + (h0 + gap)]> chs).
    assert (0 <= h0 + gap) as Hh0.
    { specialize (Hh 0%nat item eq_refl). rewrite Nat.add_0_r in Hh. exact Hh. }
    destruct (IH (S index) chs') as [IH1 IH2].
    { subst chs'. intros E. apply (f_equal length) in E.
      rewrite length_insert in E. destruct chs; [congruence|discriminate]. }
    { intros k x Hk. specialize (Hh (S k) x Hk).
      replace (S index + k)%nat with (index + S k)%nat by lia. exact Hh. }
    assert (forall i p,
              pack columnWidth gap getItemHeight rest (S index) chs' !! i = Some p ->
              exists (c : nat) base' y,
                chs' !! c = Some base'
                /\ pos_x p = Z.of_nat c * (columnWidth + gap)
                /\ pos_y p = Some y /\ base' <= y) as IH1' by exact IH1.
    split.
    + intros [|i] p Hp; simpl in Hp.
      * injection Hp as <-. exists c0, m, m. simpl. repeat split; auto. lia.
      * destruct (IH1' i p Hp) as (c & base' & y & Hc & Hx & Hy & Hle).
        subst chs'. apply list_lookup_insert_Some in Hc
          as [(<- & <- & _)|(Hcne & Hc)].
        -- exists c0, m, y. repeat split; auto. lia.
        -- exists c, base', y. repeat split; auto.
    + intros [|i] [|j] p q y1 y2 Hij Hp Hq Hx Hy1 Hy2; simpl in Hp, Hq; try lia.
      * injection Hp as <-. simpl in Hx, Hy1. injection Hy1 as <-.
        destruct (IH1' j q Hq) as (c & base' & y & Hc & Hxq & Hyq & Hle).
        rewrite Hy2 in Hyq. injection Hyq as <-.
        assert (c = c0) as ->.
        { rewrite Hxq in Hx. apply Z.mul_cancel_r in Hx; [lia|assumption]. }
        subst chs'. rewrite list_lookup_insert_eq in Hc
          by (eapply lookup_lt_Some; eauto).
        injection Hc as <-. simpl. lia.
      * apply (IH2 i j p q y1 y2); auto. lia.
Qed.

(** One placement keeps the columns within [bound] of each other when the
    item with its gap is no taller than [bound]. *)
Lemma place_spread columnWidth gap chs height bound :
  chs <> [] -> 0 <= height + gap <= bound ->
  (forall a b, a ∈ chs -> b ∈ chs -> a - b <= bound) ->
  forall a b, a ∈ (place columnWidth gap chs height).2 ->
              b ∈ (place columnWidth gap chs height).2 -> a - b <= bound.
Proof.
  intros Hne Hd Hspread a b Ha Hb.
  destruct (place_greedy columnWidth gap chs height Hne)
    as (c & m & Hc & Hmin & _ & Hplace).
  rewrite Hplace in Ha, Hb. cbn [snd] in Ha, Hb.
  assert (m ∈ chs) as Hm by (apply list_elem_of_lookup; eauto).
  assert (forall v, v ∈ <[c := m + (height + gap)]> chs ->
            v = m + (height + gap) \/ (v ∈ chs /\ m <= v)) as Hcase.
  { intros v Hv. apply list_elem_of_lookup in Hv as [j Hj].
    apply list_lookup_insert_Some in Hj as [(_ & <- & _)|(_ & Hj)].
    - left. reflexivity.
    - right. split; [apply list_elem_of_lookup; eauto|eapply Hmin; eauto]. }
  destruct (Hcase a Ha) as [->|[Ha' Hma]];
    destruct (Hcase b Hb) as [->|[Hb' Hmb]].
  - lia.
  - lia.
  - specialize (Hspread a m Ha' Hm). lia.
  - apply Hspread; assumption.
Qed.

Lemma columnHeights_after_spread columnWidth gap getItemHeight rest index chs
    bound :
  chs <> [] ->
  (forall k item, rest !! k = Some item ->
     0 <= getItemHeight item (index + k)%nat + gap <= bound) ->
  (forall a b, a ∈ chs -> b ∈ chs -> a - b <= bound) ->
  forall a b,
    a ∈ MasonryPass.columnHeights_after columnWidth gap getItemHeight rest
          index chs ->
    b ∈ MasonryPass.columnHeights_after columnWidth gap getItemHeight rest
          index chs ->
    a - b <= bound.
Proof.
  revert index chs.
  induction rest as [|item rest IH]; intros index chs Hne Hh Hspread.
  - exact Hspread.
  - cbn [MasonryPass.columnHeights_after]. apply IH.
    + destruct (place_greedy columnWidth gap chs (getItemHeight item index) Hne)
        as (c & m & _ & _ & _ & ->). cbn [snd].
      intros E. apply (f_equal length) in E. rewrite length_insert in E.
      destruct chs; [congruence|discriminate].
    + intros k x Hk. specialize (Hh (S k) x Hk).
      replace (S index + k)%nat with (index + S k)%nat by lia. exact Hh.
    + apply place_spread; [assumption| |assumption].
      specialize (Hh 0%nat item eq_refl). rewrite Nat.add_0_r in Hh. exact Hh.
Qed.

End MasonryInvariant.

(** X15: items of one column never overlap.  With at least one column and
    every item height plus the gap non-negative, each position lies in one
    of the columns ([x = c * (columnWidth + gap)] with [c] below the
    column count) at a [y >= 0], and of two positions with the same [x]
    the later one starts at least the gap below the bottom of the
    earlier one. *)
Theorem masonry_columns_do_not_overlap {Item} (items : list Item)
    (columnWidth gap : Z) (getItemHeight : Item -> nat -> Z) (n : nat) :
  columnWidth + gap <> 0 -> (0 < n)%nat ->
  (forall i item, items !! i = Some item -> 0 <= getItemHeight item i + gap) ->
  let ps := Masonry.pack columnWidth gap getItemHeight items 0 (replicate n 0) in
  (forall i p, ps !! i = Some p ->
     exists (c : nat) y,
       (c < n)%nat /\ Masonry.pos_x p = Z.of_nat c * (columnWidth + gap)
       /\ Masonry.pos_y p = Some y /\ 0 <= y)
  /\ (forall (i j : nat) p q y1 y2,
        (i < j)%nat -> ps !! i = Some p -> ps !! j = Some q ->
        Masonry.pos_x p = Masonry.pos_x q ->
        Masonry.pos_y p = Some y1 -> Masonry.pos_y q = Some y2 ->
        y1 + Masonry.pos_height p + gap <= y2).
Proof.
  intros HW Hn Hh ps.
  destruct (pack_invariant columnWidth gap getItemHeight items 0
              (replicate n 0) HW) as [H1 H2].
  { destruct n; [lia|discriminate]. }
  { intros k item Hk. apply Hh. exact Hk. }
  split; [|exact H2].
  intros i p Hp. destruct (H1 i p Hp) as (c & base & y & Hc & Hx & Hy & Hle).
  apply lookup_replicate in Hc as [-> Hc]. exists c, y. auto.
Qed.

Lemma masonry_columns_do_not_overlap_witness :
  0 + Masonry.pos_height (Masonry.Position 0 (Some 0) 100) + 10 <= 110.
Proof.
  destruct (masonry_columns_do_not_overlap [tt; tt; tt; tt; tt] 100 10
              Scenario.five_heights 2) as [_ Hapart].
  - lia.
  - lia.
  - intros i item Hi. do 5 (destruct i as [|i]; [vm_compute; discriminate|]).
    discriminate.
  - apply (Hapart 0%nat 2%nat (Masonry.Position 0 (Some 0) 100)
             (Masonry.Position 0 (Some 110) 80) 0 110);
      [lia|reflexivity..].
Defined.

(** X16: [totalHeight] is 0 for no position, NaN as soon as one position
    has no [y], and otherwise the lowest bottom edge: it is at least
    [y + height] for every position and equal to it for one of them. *)
Theorem masonry_totalHeight_is_lowest_edge (ps : list Masonry.position) :
  (ps = [] -> Masonry.totalHeight ps = Some 0)
  /\ ((exists p, p ∈ ps /\ Masonry.pos_y p = None) ->
      Masonry.totalHeight ps = None)
  /\ (ps <> [] -> Forall (fun p => is_Some (Masonry.pos_y p)) ps ->
      exists t,
        Masonry.totalHeight ps = Some t
        /\ (forall p y, p ∈ ps -> Masonry.pos_y p = Some y ->
              y + Masonry.pos_height p <= t)
        /\ exists p y, p ∈ ps /\ Masonry.pos_y p = Some y
                       /\ y + Masonry.pos_height p = t).
Proof.
  split; [intros ->; reflexivity|]. split.
  - intros (p & Hp & Hy). destruct ps as [|p0 ps]; [apply elem_of_nil in Hp; contradiction|].
    unfold Masonry.totalHeight.
    assert (forall l acc,
              p ∈ l ->
              foldl (fun acc q => a ← acc; b ← Masonry.bottom q; Some (Z.max a b))
                    acc l = None) as Hpoison.
    { induction l as [|q l IH]; intros acc Hin; [apply elem_of_nil in Hin; contradiction|].
      simpl. apply elem_of_cons in Hin as [<-|Hin].
      - unfold Masonry.bottom at 2. rewrite Hy.
        destruct acc; apply totalHeight_fold_None.
      - apply IH. assumption. }
    apply elem_of_cons in Hp as [<-|Hp].
    + unfold Masonry.bottom at 2. rewrite Hy. apply totalHeight_fold_None.
    + apply Hpoison. assumption.
  - intros Hne Hall. destruct ps as [|p0 ps]; [congruence|].
    apply Forall_cons in Hall as [[y0 Hy0] Hall].
    unfold Masonry.totalHeight. unfold Masonry.bottom at 2. rewrite Hy0. simpl.
    destruct (totalHeight_fold ps (y0 + Masonry.pos_height p0) Hall)
      as (t & Ht & Hge & Hmax & Hatt).
    exists t. split; [exact Ht|]. split.
    + intros p y Hp Hy. apply elem_of_cons in Hp as [->|Hp].
      * rewrite Hy0 in Hy. injection Hy as <-. lia.
      * eapply Hmax; eauto.
    + destruct Hatt as [->|(p & y & Hp & Hy & Hpt)].
      * exists p0, y0. split; [apply list_elem_of_here|]. auto.
      * exists p, y. split; [apply list_elem_of_further; exact Hp|]. auto.
Qed.

(** X17: the greedy pass keeps the columns balanced.  With at least one
    column, if every item height plus the gap lies between 0 and
    [bound], then after the pass any two column heights differ by at most
    [bound]. *)
Theorem masonry_columns_stay_balanced {Item} (items : list Item)
    (columnWidth gap bound : Z) (getItemHeight : Item -> nat -> Z) (n : nat) :
  (0 < n)%nat -> 0 <= bound ->
  (forall i item, items !! i = Some item ->
     0 <= getItemHeight item i + gap <= bound) ->
  forall a b,
    a ∈ MasonryPass.columnHeights_after columnWidth gap getItemHeight items 0
          (replicate n 0) ->
    b ∈ MasonryPass.columnHeights_after columnWidth gap getItemHeight items 0
          (replicate n 0) ->
    a - b <= bound.
Proof.
  intros Hn Hbound Hh.
  apply columnHeights_after_spread.
  - destruct n; [lia|discriminate].
  - intros k x Hk. apply Hh. exact Hk.
  - intros a b Ha Hb.
    apply elem_of_replicate in Ha as [-> _].
    apply elem_of_replicate in Hb as [-> _]. lia.
Qed.

Lemma masonry_columns_stay_balanced_witness : 300 - 290 <= 160.
Proof.
  apply (masonry_columns_stay_balanced [tt; tt; tt; tt; tt] 100 10 160
           Scenario.five_heights 2).
  - lia.
  - lia.
  - intros i item Hi.
    do 5 (destruct i as [|i]; [vm_compute; split; discriminate|]).
    discriminate.
  - change (300 ∈ [300; 290]). apply list_elem_of_here.
  - change (290 ∈ [300; 290]). apply list_elem_of_further, list_elem_of_here.
Defined.

(** * [throttle] *)

Section ThrottleFacts.
Import Throttle.
Context {Arg : Type}.
Variable limit : Z.
Implicit Types (st : Throttle.state Arg) (tr : list (Throttle.event Arg)).





(** While the one timer is not due, nothing changes but the clock. *)
Lemma run_while_throttled tr st id due :
  inThrottle st = true ->
  Timers.pending (timers st) = {[id := (due, tt)]} ->
  Timers.now (timers st) + elapsed tr < due ->
  calls (run limit tr st) = calls st.
Proof.
  revert st. induction tr as [|e tr IH]; intros st Hin Hpend Hnot; [reflexivity|].
  simpl in *. destruct e as [arg|dt|id']; simpl in *.
  - rewrite Hin. apply IH; assumption.
  - rewrite IH; simpl; auto. lia.
  - unfold Timers.take_due. rewrite Hpend.
    pose proof (Z.le_refl 0) as _.
    assert (0 <= elapsed tr) as Hel.
    { clear. induction tr as [|[| |] tr IH]; simpl; lia. }
    destruct (decide (id = id')) as [->|Hne].
    + rewrite lookup_singleton_eq.
      destruct (Z.leb_spec due (Timers.now (timers st))); [lia|].
      apply IH; assumption.
    + rewrite lookup_singleton_ne by assumption. apply IH; assumption.
Qed.

Lemma run_without_call tr st :
  forallb (fun e => negb (is_call e)) tr = true ->
  calls (run limit tr st) = calls st.
Proof.
  revert st. induction tr as [|e tr IH]; intros st Hno; [reflexivity|].
  simpl in *. apply andb_true_iff in Hno as [He Htr].
  rewrite IH by assumption.
  destruct e as [arg|dt|id]; simpl in *; [discriminate|reflexivity|].
  destruct (Timers.take_due (timers st) id) as [[? ?]|]; reflexivity.
Qed.

Lemma run_app tr1 tr2 st :
  run limit (tr1 ++ tr2) st = run limit tr2 (run limit tr1 st).
Proof. unfold run. apply foldl_app. Qed.

End ThrottleFacts.




(** X20: what the list hook shows after a burst of scroll events.  When
    scroll events arrive less than 16 ms after the first one, the
    [scrollTop] state holds the offset of the first event, and stays so once
    the timer has run: every derived value is that of the first offset, not
    of the last. *)
Theorem handleScroll_keeps_first_offset {Item} (o : options Item)
    (hs : gmap nat Z) (t0 first : Z) (tr tr' : list (Throttle.event Z)) :
  Throttle.elapsed tr < 16 ->
  forallb (fun e => negb (Throttle.is_call e)) tr' = true ->
  let st := Throttle.run 16 (Throttle.Call first :: tr ++ tr') (Throttle.init t0) in
  ScrollHandler.scrollTop_of st = first
  /\ render o (State (ScrollHandler.scrollTop_of st) hs) = render o (State first hs).
Proof.
  intros Hburst Hquiet st.
  assert (Throttle.calls st = [(t0, first)]) as Hcalls.
  { subst st.
    change (Throttle.run 16 (Throttle.Call first :: tr ++ tr') (Throttle.init t0))
      with (Throttle.run 16 (tr ++ tr')
              (Throttle.step 16 (Throttle.init t0) (Throttle.Call first))).
    rewrite run_app, run_without_call by assumption.
    rewrite (run_while_throttled 16 tr _ 1%nat (t0 + Z.max 0 16));
      [reflexivity|reflexivity| |simpl; lia].
    simpl. rewrite insert_empty. reflexivity. }
  assert (ScrollHandler.scrollTop_of st = first) as Htop.
  { unfold ScrollHandler.scrollTop_of. rewrite Hcalls. reflexivity. }
  split; [exact Htop|]. rewrite Htop. reflexivity.
Qed.

Lemma handleScroll_keeps_first_offset_witness :
  ScrollHandler.scrollTop_of
    (Throttle.run 16
       (Throttle.Call 100
        :: [Throttle.Advance 5; Throttle.Call 140; Throttle.Advance 5;
            Throttle.Call 180]
        ++ [Throttle.Advance 50; Throttle.Fire 1%nat])
       (Throttle.init 0))
  = 100.
Proof.
  eapply proj1.
  apply (handleScroll_keeps_first_offset Scenario.two_items ∅ 0 100);
    reflexivity.
Defined.

(** * [debounce] *)

Section DebounceFacts.
Import Debounce.
Context {Arg : Type}.
Variable wait : Z.
Variable immediate : bool.
Implicit Types (st : Debounce.state Arg) (tr : list (Debounce.event Arg)).

Lemma debounce_inv_init t0 : debounce_inv (init (Arg := Arg) t0).
Proof. left. split; reflexivity. Qed.

Lemma debounce_step_call st arg :
  debounce_inv st ->
  let st' := step wait immediate st (Call arg) in
  timeout st' = Some (Timers.next_id (timers st))
  /\ Timers.pending (timers st')
     = {[Timers.next_id (timers st)
         := (Timers.now (timers st) + Z.max 0 wait, arg)]}
  /\ Timers.now (timers st') = Timers.now (timers st)
  /\ calls st'
     = if immediate && match timeout st with None => true | Some _ => false end
       then calls st ++ [(Timers.now (timers st), arg)] else calls st.
Proof.
  intros Hinv. simpl.
  assert (Timers.pending (Timers.clearTimeout (timers st) (timeout st)) = ∅) as Hc.
  { destruct Hinv as [[-> Hp]|(id & due & a & -> & Hp)]; simpl.
    - exact Hp.
    - rewrite Hp. apply delete_singleton_eq. }
  unfold Timers.setTimeout. simpl. rewrite Hc, insert_empty.
  destruct (timeout st); simpl; auto.
Qed.

Lemma debounce_inv_step st e :
  debounce_inv st -> debounce_inv (step wait immediate st e).
Proof.
  intros Hinv. destruct e as [arg|dt|id].
  - destruct (debounce_step_call st arg Hinv) as (Ht & Hp & _).
    right. eauto.
  - exact Hinv.
  - simpl. unfold Timers.take_due.
    destruct Hinv as [[Ht Hp]|(id0 & due & a & Ht & Hp)]; rewrite Hp.
    + rewrite lookup_empty. left. auto.
    + destruct (decide (id0 = id)) as [->|Hne].
      * rewrite lookup_singleton_eq. destruct (due <=? _).
        -- left. simpl. split; [reflexivity|]. apply delete_singleton_eq.
        -- right. eauto.
      * rewrite lookup_singleton_ne by assumption. right. eauto.
Qed.

Lemma debounce_inv_run tr st :
  debounce_inv st -> debounce_inv (run wait immediate tr st).
Proof.
  revert st. induction tr as [|e tr IH]; intros st Hst; [assumption|].
  simpl. apply IH, debounce_inv_step, Hst.
Qed.

Lemma debounce_run_app tr1 tr2 st :
  run wait immediate (tr1 ++ tr2) st
  = run wait immediate tr2 (run wait immediate tr1 st).
Proof. unfold run. apply foldl_app. Qed.

Lemma debounce_now_mono st e :
  Timers.now (timers st) <= Timers.now (timers (step wait immediate st e)).
Proof.
  destruct e as [arg|dt|id]; simpl.
  - destruct (timeout st); simpl; lia.
  - lia.
  - unfold Timers.take_due.
    destruct (Timers.pending (timers st) !! id) as [[due a]|]; [|lia].
    destruct (due <=? _); simpl; lia.
Qed.

End DebounceFacts.

(** X21: [debounce] never leaves a stale timer behind.  After any sequence
    of calls, clock advances and timer runs, either no timer is pending and
    [timeout] is null, or exactly one timer is pending and [timeout] is
    its id. *)
Theorem debounce_has_at_most_one_timer {Arg} (wait : Z) (immediate : bool)
    (t0 : Z) (tr : list (Debounce.event Arg)) :
  let st := Debounce.run wait immediate tr (Debounce.init t0) in
  (Debounce.timeout st = None
   /\ Timers.pending (Debounce.timers st) = ∅)
  \/ exists id due arg,
       Debounce.timeout st = Some id
       /\ Timers.pending (Debounce.timers st) = {[id := (due, arg)]}.
Proof.
  apply (debounce_inv_run wait immediate tr), debounce_inv_init.
Qed.

Section DebounceRuns.
Import Debounce.
Context {Arg : Type}.
Variable wait : Z.
Implicit Types (st : Debounce.state Arg) (tr : list (Debounce.event Arg)).

(** Trailing mode, no new call, no timer: nothing happens. *)
Lemma trailing_quiet_empty tr st :
  forallb (fun e => negb (is_call e)) tr = true ->
  Timers.pending (timers st) = ∅ ->
  calls (run wait false tr st) = calls st.
Proof.
  revert st. induction tr as [|e tr IH]; intros st Hq Hp; [reflexivity|].
  simpl in *. apply andb_true_iff in Hq as [He Hq].
  destruct e as [arg|dt|id]; simpl in *; [discriminate| |].
  - rewrite IH by assumption. reflexivity.
  - unfold Timers.take_due. rewrite Hp, lookup_empty. apply IH; assumption.
Qed.

(** Trailing mode, no new call, one timer: it runs at most once, from its
    due time on, with the arguments it carries. *)
Lemma trailing_quiet_pending tr st id due arg :
  forallb (fun e => negb (is_call e)) tr = true ->
  Timers.pending (timers st) = {[id := (due, arg)]} ->
  calls (run wait false tr st) = calls st
  \/ exists t, due <= t /\ calls (run wait false tr st) = calls st ++ [(t, arg)].
Proof.
  revert st. induction tr as [|e tr IH]; intros st Hq Hp; [left; reflexivity|].
  simpl in *. apply andb_true_iff in Hq as [He Hq].
  destruct e as [a|dt|id']; simpl in *; [discriminate| |].
  - exact (IH (State (timeout st) (Timers.advance (timers st) dt) (calls st))
              Hq Hp).
  - unfold Timers.take_due. rewrite Hp.
    destruct (decide (id = id')) as [->|Hne].
    + rewrite lookup_singleton_eq.
      destruct (Z.leb_spec due (Timers.now (timers st))).
      * right. exists (Timers.now (timers st)). split; [assumption|].
        rewrite trailing_quiet_empty; [reflexivity|assumption|].
        simpl. apply delete_singleton_eq.
      * apply IH; assumption.
    + rewrite lookup_singleton_ne by assumption. apply IH; assumption.
Qed.

(** Immediate mode: while [timeout] is set and the host runs no timer, no
    call gets through. *)
Lemma immediate_busy tr st :
  forallb (fun e => negb (is_fire e)) tr = true ->
  timeout st <> None ->
  calls (run wait true tr st) = calls st.
Proof.
  revert st. induction tr as [|e tr IH]; intros st Hq Hbusy; [reflexivity|].
  simpl in *. apply andb_true_iff in Hq as [He Hq].
  destruct e as [a|dt|id]; simpl in *; [| |discriminate].
  - destruct (timeout st) as [id0|] eqn:E; [|congruence].
    rewrite IH; [reflexivity|assumption|discriminate].
  - rewrite IH by assumption. reflexivity.
Qed.

(** Immediate mode: running a timer never invokes the function. *)
Lemma immediate_quiet tr st :
  forallb (fun e => negb (is_call e)) tr = true ->
  calls (run wait true tr st) = calls st.
Proof.
  revert st. induction tr as [|e tr IH]; intros st Hq; [reflexivity|].
  simpl in *. apply andb_true_iff in Hq as [He Hq].
  rewrite IH by assumption.
  destruct e as [a|dt|id]; simpl in *; [discriminate|reflexivity|].
  destruct (Timers.take_due (timers st) id) as [[? ?]|]; reflexivity.
Qed.

End DebounceRuns.

(** X22: trailing [debounce] ([immediate] false).  A call invokes nothing
    by itself and cancels whatever an earlier call had scheduled.  As long
    as no new call comes, at most one invocation follows it: with that
    call's arguments and no sooner than [wait] after it; and it does
    follow once the host runs the timer after [wait]. *)
Theorem debounce_delivers_last_call {Arg} (wait t0 : Z) (arg : Arg)
    (tr tr' : list (Debounce.event Arg)) :
  forallb (fun e => negb (Debounce.is_call e)) tr' = true ->
  let s0 := Debounce.run wait false tr (Debounce.init t0) in
  let s1 := Debounce.step wait false s0 (Debounce.Call arg) in
  let called := Timers.now (Debounce.timers s0) in
  Debounce.calls s1 = Debounce.calls s0
  /\ (Debounce.calls (Debounce.run wait false tr' s1) = Debounce.calls s0
      \/ exists t,
           called + Z.max 0 wait <= t
           /\ Debounce.calls (Debounce.run wait false tr' s1)
              = Debounce.calls s0 ++ [(t, arg)])
  /\ forall dt id,
       wait <= dt -> Debounce.timeout s1 = Some id ->
       Debounce.calls
         (Debounce.run wait false [Debounce.Advance dt; Debounce.Fire id] s1)
       = Debounce.calls s0 ++ [(called + Z.max 0 dt, arg)].
Proof.
  intros Hquiet s0 s1 called.
  assert (debounce_inv s0) as Hinv
    by apply (debounce_inv_run wait false tr), debounce_inv_init.
  destruct (debounce_step_call wait false s0 arg Hinv) as (Ht & Hp & Hnow & Hc).
  fold s1 in Ht, Hp, Hnow, Hc.
  assert (Debounce.calls s1 = Debounce.calls s0) as Hc1 by exact Hc.
  clear Hc. clearbody s1. split; [exact Hc1|]. split.
  - rewrite <- Hc1.
    exact (trailing_quiet_pending wait tr' s1 _ _ _ Hquiet Hp).
  - intros dt id Hdt Hid. rewrite Ht in Hid. injection Hid as <-.
    simpl. unfold Timers.take_due. simpl. rewrite Hp, lookup_singleton_eq, Hnow.
    fold called.
    destruct (Z.leb_spec (called + Z.max 0 wait) (called + Z.max 0 dt)); [|lia].
    simpl. rewrite Hc1. reflexivity.
Qed.

Lemma debounce_delivers_last_call_witness :
  Debounce.calls
    (Debounce.run 300 false [Debounce.Advance 400; Debounce.Fire 2%nat]
       (Debounce.step 300 false
          (Debounce.run 300 false [Debounce.Call 1; Debounce.Advance 100]
             (Debounce.init 0))
          (Debounce.Call 2)))
  = [(500, 2)].
Proof.
  destruct (debounce_delivers_last_call 300 0 2
              [Debounce.Call 1; Debounce.Advance 100]
              [Debounce.Advance 400; Debounce.Fire 2%nat] eq_refl)
    as (_ & _ & Hfire).
  apply (Hfire 400 2%nat); [lia|reflexivity].
Defined.

(** X23: leading [debounce] ([immediate] true).  The first call is passed
    on at once; every further call made before the host has run the timer
    is dropped (and pushes the timer back); running a timer never invokes
    the function, so a dropped call is never delivered. *)
Theorem debounce_immediate_leading_edge {Arg} (wait t0 : Z) (arg : Arg)
    (tr tr' : list (Debounce.event Arg)) :
  forallb (fun e => negb (Debounce.is_fire e)) tr = true ->
  forallb (fun e => negb (Debounce.is_call e)) tr' = true ->
  Debounce.calls
    (Debounce.run wait true (Debounce.Call arg :: tr ++ tr') (Debounce.init t0))
  = [(t0, arg)].
Proof.
  intros Hbusy Hquiet.
  change (Debounce.run wait true (Debounce.Call arg :: tr ++ tr') (Debounce.init t0))
    with (Debounce.run wait true (tr ++ tr')
            (Debounce.step wait true (Debounce.init t0) (Debounce.Call arg))).
  rewrite debounce_run_app, immediate_quiet, immediate_busy by
    (assumption || discriminate).
  reflexivity.
Qed.

Lemma debounce_immediate_leading_edge_witness :
  Debounce.calls
    (Debounce.run 300 true
       (Debounce.Call 1
        :: [Debounce.Advance 100; Debounce.Call 2; Debounce.Advance 100;
            Debounce.Call 3]
        ++ [Debounce.Advance 400; Debounce.Fire 3%nat])
       (Debounce.init 0))
  = [(0, 1)].
Proof.
  apply (debounce_immediate_leading_edge 300 0 1); reflexivity.
Defined.

(** * The expiring cache *)

Section ExpiredCacheFacts.
Import ExpiredCache.
Context `{Countable K} {V : Type}.
Variable ttl : Z.
Implicit Types (st : ExpiredCache.state K V) (tr : list (ExpiredCache.event K V)).

Lemma cache_inv_create t0 : cache_inv (create (K := K) (V := V) t0).
Proof.
  unfold create. repeat split; simpl; intros; rewrite ?lookup_empty in *;
    try discriminate; try (destruct H0; discriminate); reflexivity.
Qed.

End ExpiredCacheFacts.

Section ExpiredCacheSteps.
Import ExpiredCache.
Context `{Countable K} {V : Type}.
Variable ttl : Z.
Implicit Types (st : ExpiredCache.state K V) (tr : list (ExpiredCache.event K V)).

(** Two keys never share a timer. *)
Lemma cache_inv_timer_inj st k k' id :
  cache_inv st -> timers st !! k = Some id -> timers st !! k' = Some id ->
  k = k'.
Proof.
  intros (_ & I2 & _ & _) Hk Hk'.
  destruct (I2 k id Hk) as [due Hd]. destruct (I2 k' id Hk') as [due' Hd'].
  congruence.
Qed.

(** Removing a key together with its timer. *)
Lemma cache_inv_remove st k t :
  cache_inv st -> timers st !! k = Some t ->
  cache_inv (State (delete k (cache st)) (delete k (timers st))
               (Timers.Queue (Timers.now (host st)) (Timers.next_id (host st))
                  (delete t (Timers.pending (host st))))).
Proof.
  intros Hinv Ht. pose proof Hinv as (I1 & I2 & I3 & I4).
  repeat split; simpl.
  - intros Hs. destruct (decide (k = k0)) as [->|Hne].
    + rewrite lookup_delete_eq in Hs. destruct Hs; discriminate.
    + rewrite lookup_delete_ne in Hs by assumption.
      rewrite lookup_delete_ne by assumption. apply I1. assumption.
  - intros Hs. destruct (decide (k = k0)) as [->|Hne].
    + rewrite lookup_delete_eq in Hs. destruct Hs; discriminate.
    + rewrite lookup_delete_ne in Hs by assumption.
      rewrite lookup_delete_ne by assumption. apply I1. assumption.
  - intros k' id Hk'. destruct (decide (k = k')) as [->|Hne].
    + rewrite lookup_delete_eq in Hk'. discriminate.
    + rewrite lookup_delete_ne in Hk' by assumption.
      destruct (I2 k' id Hk') as [due Hd]. exists due.
      rewrite lookup_delete_ne; [assumption|].
      intros ->. apply Hne. eapply cache_inv_timer_inj; eauto.
  - intros id due k' Hp. destruct (decide (t = id)) as [->|Hne].
    + rewrite lookup_delete_eq in Hp. discriminate.
    + rewrite lookup_delete_ne in Hp by assumption.
      pose proof (I3 id due k' Hp) as Hk'.
      rewrite lookup_delete_ne; [assumption|]. intros ->. congruence.
  - intros id Hid. destruct (decide (t = id)) as [->|Hne].
    + apply lookup_delete_eq.
    + rewrite lookup_delete_ne by assumption. apply I4. assumption.
Qed.

Lemma pending_after_clear (q : Timers.queue K) (ids : list nat) (id : nat) :
  Timers.pending
    (foldr (fun timer q => Timers.clearTimeout q (Some timer)) q ids) !! id
  = if decide (id ∈ ids) then None else Timers.pending q !! id.
Proof.
  induction ids as [|t ids IH]; cbn [foldr].
  - destruct (decide (id ∈ [])) as [Hin|_]; [|reflexivity].
    apply elem_of_nil in Hin. contradiction.
  - unfold Timers.clearTimeout at 1. cbn [Timers.pending].
    destruct (decide (t = id)) as [->|Hne].
    + rewrite lookup_delete_eq.
      destruct (decide (id ∈ id :: ids)) as [_|Hin]; [reflexivity|].
      exfalso. apply Hin, list_elem_of_here.
    + rewrite lookup_delete_ne, IH by assumption.
      destruct (decide (id ∈ ids)) as [Hin|Hin];
        destruct (decide (id ∈ t :: ids)) as [Hin'|Hin']; try reflexivity.
      * exfalso. apply Hin'. apply list_elem_of_further. assumption.
      * apply elem_of_cons in Hin' as [->|?]; [congruence|contradiction].
Qed.

Lemma next_id_after_clear (q : Timers.queue K) (ids : list nat) :
  Timers.next_id
    (foldr (fun timer q => Timers.clearTimeout q (Some timer)) q ids)
  = Timers.next_id q.
Proof. induction ids as [|t ids IH]; simpl; auto. Qed.

Lemma now_after_clear (q : Timers.queue K) (ids : list nat) :
  Timers.now
    (foldr (fun timer q => Timers.clearTimeout q (Some timer)) q ids)
  = Timers.now q.
Proof. induction ids as [|t ids IH]; simpl; auto. Qed.

(** After [clear] no timer is pending. *)
Lemma clear_pending st id :
  cache_inv st -> Timers.pending (host (clear st)) !! id = None.
Proof.
  intros (_ & _ & I3 & _). unfold clear. simpl. rewrite pending_after_clear.
  case_decide as Hin; [reflexivity|].
  destruct (Timers.pending (host st) !! id) as [[due k]|] eqn:E; [|reflexivity].
  exfalso. apply Hin. apply list_elem_of_fmap. exists (k, id).
  split; [reflexivity|]. apply elem_of_map_to_list. eapply I3; eauto.
Qed.

Lemma cache_inv_set st k v : cache_inv st -> cache_inv (set ttl k v st).
Proof.
  intros Hinv. pose proof Hinv as (I1 & I2 & I3 & I4). unfold set.
  set (cleared := match timers st !! k with
                  | Some timer => Timers.clearTimeout (host st) (Some timer)
                  | None => host st
                  end).
  assert (Timers.next_id cleared = Timers.next_id (host st)) as Hnext
    by (subst cleared; destruct (timers st !! k); reflexivity).
  assert (forall id, Timers.pending cleared !! id
            = if decide (timers st !! k = Some id) then None
              else Timers.pending (host st) !! id) as Hcl.
  { intros id. subst cleared.
    destruct (timers st !! k) as [t|] eqn:Et;
      cbn [Timers.clearTimeout Timers.pending].
    - destruct (decide (t = id)) as [->|Hne].
      + rewrite lookup_delete_eq. rewrite decide_True by reflexivity. reflexivity.
      + rewrite lookup_delete_ne by assumption.
        rewrite decide_False by congruence. reflexivity.
    - rewrite decide_False by discriminate. reflexivity. }
  unfold Timers.setTimeout. cbn [fst snd]. rewrite Hnext.
  set (n := Timers.next_id (host st)).
  assert (Timers.pending (host st) !! n = None) as Hfresh by (apply I4; lia).
  repeat split; simpl.
  - intros Hs. destruct (decide (k = k0)) as [->|Hne].
    + rewrite lookup_insert_eq. eauto.
    + rewrite lookup_insert_ne in Hs by assumption.
      rewrite lookup_insert_ne by assumption. apply I1. assumption.
  - intros Hs. destruct (decide (k = k0)) as [->|Hne].
    + rewrite lookup_insert_eq. eauto.
    + rewrite lookup_insert_ne in Hs by assumption.
      rewrite lookup_insert_ne by assumption. apply I1. assumption.
  - intros k' id Hk'. destruct (decide (k = k')) as [->|Hne].
    + rewrite lookup_insert_eq in Hk'. injection Hk' as <-.
      rewrite lookup_insert_eq. eauto.
    + rewrite lookup_insert_ne in Hk' by assumption.
      destruct (I2 k' id Hk') as [due Hd]. exists due.
      rewrite lookup_insert_ne by (intros ->; congruence).
      rewrite Hcl, decide_False; [assumption|].
      intros Hk. apply Hne. eapply cache_inv_timer_inj; eauto.
  - intros id due k' Hp. destruct (decide (n = id)) as [<-|Hne].
    + rewrite lookup_insert_eq in Hp. injection Hp as _ <-.
      apply lookup_insert_eq.
    + rewrite lookup_insert_ne in Hp by assumption. rewrite Hcl in Hp.
      case_decide as Hk; [discriminate|].
      pose proof (I3 id due k' Hp) as Hk'.
      rewrite lookup_insert_ne; [assumption|]. intros ->. contradiction.
  - intros id Hid. rewrite lookup_insert_ne by lia. rewrite Hcl.
    case_decide; [reflexivity|]. apply I4. lia.
Qed.

Lemma cache_inv_step st e : cache_inv st -> cache_inv (step ttl st e).
Proof.
  intros Hinv. pose proof Hinv as (I1 & I2 & I3 & I4).
  destruct e as [k v|k| |dt|id]; simpl.
  - apply cache_inv_set. assumption.
  - destruct (timers st !! k) as [t|] eqn:Et.
    + apply (cache_inv_remove st k t Hinv Et).
    + assert (cache st !! k = None) as Hc.
      { destruct (cache st !! k) eqn:E; [|reflexivity].
        assert (is_Some (timers st !! k)) as [? ?] by (apply I1; eauto).
        congruence. }
      rewrite delete_id by assumption.
      destruct st; exact Hinv.
  - repeat split; simpl.
    + intros [? Hs]. rewrite lookup_empty in Hs. discriminate.
    + intros [? Hs]. rewrite lookup_empty in Hs. discriminate.
    + intros k id Hk. rewrite lookup_empty in Hk. discriminate.
    + intros id due k Hp.
      pose proof (clear_pending st id Hinv) as Hnone. simpl in Hnone.
      congruence.
    + intros id Hid. apply (clear_pending st id Hinv).
  - exact Hinv.
  - unfold fire, Timers.take_due.
    destruct (Timers.pending (host st) !! id) as [[due k]|] eqn:E; [|exact Hinv].
    destruct (due <=? Timers.now (host st)); [|exact Hinv].
    apply (cache_inv_remove st k id Hinv). eapply I3; eauto.
Qed.

Lemma cache_inv_run tr st : cache_inv st -> cache_inv (run ttl tr st).
Proof.
  revert st. induction tr as [|e tr IH]; intros st Hst; [assumption|].
  simpl. apply IH, cache_inv_step, Hst.
Qed.

End ExpiredCacheSteps.

Section ExpiredCacheRuns.
Import ExpiredCache.
Context `{Countable K} {V : Type}.
Variable ttl : Z.
Implicit Types (st : ExpiredCache.state K V) (tr : list (ExpiredCache.event K V)).

Lemma cache_elapsed_nonneg tr : 0 <= elapsed tr.
Proof. induction tr as [|[| | | |] tr IH]; simpl; lia. Qed.

(** What [set] leaves for its own key. *)
Lemma set_own_key st k v :
  let st' := set ttl k v st in
  cache st' !! k = Some v
  /\ timers st' !! k = Some (Timers.next_id (host st))
  /\ Timers.pending (host st') !! Timers.next_id (host st)
     = Some (Timers.now (host st) + Z.max 0 ttl, k)
  /\ Timers.now (host st') = Timers.now (host st).
Proof.
  unfold set.
  destruct (timers st !! k) as [t|]; simpl; rewrite !lookup_insert_eq; auto.
Qed.

(** An entry whose timer is not due outlives whatever happens to the other
    keys. *)
Lemma entry_survives tr st k v id due :
  cache_inv st ->
  cache st !! k = Some v -> timers st !! k = Some id ->
  Timers.pending (host st) !! id = Some (due, k) ->
  Timers.now (host st) + elapsed tr < due ->
  forallb (fun e => negb (touches k e)) tr = true ->
  cache (run ttl tr st) !! k = Some v.
Proof.
  revert st. induction tr as [|e tr IH]; intros st Hinv Hc Ht Hp Hdue Hno;
    [exact Hc|].
  simpl in Hno. apply andb_true_iff in Hno as [He Hno].
  pose proof (cache_elapsed_nonneg tr) as Hel.
  pose proof Hinv as (I1 & I2 & I3 & I4).
  cbn [run foldl]. apply IH; try assumption.
  - apply cache_inv_step. assumption.
  - destruct e as [k' v'|k'| |dt|id']; simpl in *.
    + apply negb_true_iff, bool_decide_eq_false in He. unfold set.
      destruct (timers st !! k'); simpl; rewrite lookup_insert_ne; auto.
    + apply negb_true_iff, bool_decide_eq_false in He.
      destruct (timers st !! k'); simpl; rewrite lookup_delete_ne; auto.
    + discriminate.
    + exact Hc.
    + unfold fire, Timers.take_due.
      destruct (Timers.pending (host st) !! id') as [[due' k']|] eqn:E; [|exact Hc].
      destruct (Z.leb_spec due' (Timers.now (host st))); [|exact Hc].
      simpl. rewrite lookup_delete_ne; [exact Hc|].
      intros ->. pose proof (I3 id' due' k E) as Ht'.
      rewrite Ht in Ht'. injection Ht' as ->.
      rewrite Hp in E. injection E as ->. lia.
  - destruct e as [k' v'|k'| |dt|id']; simpl in *.
    + apply negb_true_iff, bool_decide_eq_false in He. unfold set.
      destruct (timers st !! k'); simpl; rewrite lookup_insert_ne; auto.
    + apply negb_true_iff, bool_decide_eq_false in He.
      destruct (timers st !! k'); simpl; [rewrite lookup_delete_ne|]; auto.
    + discriminate.
    + exact Ht.
    + unfold fire, Timers.take_due.
      destruct (Timers.pending (host st) !! id') as [[due' k']|] eqn:E; [|exact Ht].
      destruct (Z.leb_spec due' (Timers.now (host st))); [|exact Ht].
      simpl. rewrite lookup_delete_ne; [exact Ht|].
      intros ->. pose proof (I3 id' due' k E) as Ht'.
      rewrite Ht in Ht'. injection Ht' as ->.
      rewrite Hp in E. injection E as ->. lia.
  - destruct e as [k' v'|k'| |dt|id']; simpl in *.
    + apply negb_true_iff, bool_decide_eq_false in He. unfold set.
      assert (Timers.next_id (host st) <> id) as Hfresh.
      { intros <-. rewrite I4 in Hp by lia. discriminate. }
      destruct (timers st !! k') as [t|] eqn:Et; simpl.
      * rewrite lookup_insert_ne by assumption.
        rewrite lookup_delete_ne; [exact Hp|].
        intros ->. apply He. eapply cache_inv_timer_inj; eauto.
      * rewrite lookup_insert_ne by assumption. exact Hp.
    + apply negb_true_iff, bool_decide_eq_false in He.
      destruct (timers st !! k') as [t|] eqn:Et; simpl; [|exact Hp].
      rewrite lookup_delete_ne; [exact Hp|].
      intros ->. apply He. eapply cache_inv_timer_inj; eauto.
    + discriminate.
    + exact Hp.
    + unfold fire, Timers.take_due.
      destruct (Timers.pending (host st) !! id') as [[due' k']|] eqn:E; [|exact Hp].
      destruct (Z.leb_spec due' (Timers.now (host st))); [|exact Hp].
      simpl. rewrite lookup_delete_ne; [exact Hp|].
      intros ->. rewrite Hp in E. injection E as -> _. lia.
  - destruct e as [k' v'|k'| |dt|id']; simpl in *; try lia.
    + unfold set. destruct (timers st !! k'); simpl; lia.
    + destruct (timers st !! k'); simpl; lia.
    + unfold fire, Timers.take_due.
      destruct (Timers.pending (host st) !! id') as [[due' k']|]; [|lia].
      destruct (due' <=? Timers.now (host st)); simpl; lia.
Qed.

End ExpiredCacheRuns.

(** X24: in the expiring cache entries and timers go together.  After any
    sequence of operations and timer runs, a key is cached exactly when a
    timer is pending for it, and no key has two pending timers. *)
Theorem cache_entries_have_one_timer `{Countable K} {V : Type} (ttl t0 : Z)
    (tr : list (ExpiredCache.event K V)) :
  let st := ExpiredCache.run ttl tr (ExpiredCache.create t0) in
  (forall k, is_Some (ExpiredCache.get k st)
             <-> exists id due,
                   Timers.pending (ExpiredCache.host st) !! id = Some (due, k))
  /\ (forall id id' due due' k,
        Timers.pending (ExpiredCache.host st) !! id = Some (due, k) ->
        Timers.pending (ExpiredCache.host st) !! id' = Some (due', k) ->
        id = id').
Proof.
  intros st.
  assert (cache_inv st) as (I1 & I2 & I3 & _)
    by apply (cache_inv_run ttl tr), cache_inv_create.
  split.
  - intros k. unfold ExpiredCache.get. split.
    + intros Hs. apply I1 in Hs as [id Hid].
      destruct (I2 k id Hid) as [due Hd]. eauto.
    + intros (id & due & Hp). apply I1. eauto.
  - intros id id' due due' k Hp Hp'.
    pose proof (I3 _ _ _ Hp). pose proof (I3 _ _ _ Hp'). congruence.
Qed.

(** X25: an entry lives for [ttl] after its last [set].  Right after
    [set(key, value)], and for as long as less than [ttl] has passed and
    nothing sets or deletes that key nor clears the cache, [get(key)]
    returns [value], whatever is done to other keys and whichever timers
    run; once [ttl] has passed and the host runs the entry's timer, the
    key is gone. *)
Theorem cache_entry_lives_for_ttl `{Countable K} {V : Type} (ttl t0 : Z)
    (tr0 tr : list (ExpiredCache.event K V)) (key : K) (value : V) :
  forallb (fun e => negb (ExpiredCache.touches key e)) tr = true ->
  ExpiredCache.elapsed tr < ttl ->
  let st0 := ExpiredCache.run ttl tr0 (ExpiredCache.create t0) in
  let st1 := ExpiredCache.set ttl key value st0 in
  ExpiredCache.get key st1 = Some value
  /\ ExpiredCache.get key (ExpiredCache.run ttl tr st1) = Some value
  /\ forall dt id,
       ttl <= dt -> ExpiredCache.timers st1 !! key = Some id ->
       ExpiredCache.get key
         (ExpiredCache.run ttl [ExpiredCache.Advance dt; ExpiredCache.Fire id] st1)
       = None.
Proof.
  intros Hno Hel st0 st1.
  assert (cache_inv st0) as Hinv0
    by apply (cache_inv_run ttl tr0), cache_inv_create.
  assert (cache_inv st1) as Hinv1 by apply cache_inv_set, Hinv0.
  destruct (set_own_key ttl st0 key value) as (Hc & Ht & Hp & Hnow).
  fold st1 in Hc, Ht, Hp, Hnow. clearbody st1.
  pose proof (cache_elapsed_nonneg tr) as Hpos.
  split; [exact Hc|]. split.
  - unfold ExpiredCache.get.
    apply (entry_survives ttl tr st1 key value _ _ Hinv1 Hc Ht Hp); [|assumption].
    rewrite Hnow. lia.
  - intros dt id Hdt Hid. rewrite Ht in Hid. injection Hid as <-.
    unfold ExpiredCache.get. simpl.
    unfold ExpiredCache.fire, Timers.take_due. simpl. rewrite Hp, Hnow.
    destruct (Z.leb_spec (Timers.now (ExpiredCache.host st0) + Z.max 0 ttl)
                         (Timers.now (ExpiredCache.host st0) + Z.max 0 dt)); [|lia].
    simpl. apply lookup_delete_eq.
Qed.

Lemma cache_entry_lives_for_ttl_witness :
  ExpiredCache.get 1%nat
    (ExpiredCache.run 1000
       [ExpiredCache.Advance 400; ExpiredCache.OpSet 2%nat 7;
        ExpiredCache.Advance 400; ExpiredCache.Fire 1%nat]
       (ExpiredCache.set 1000 1%nat 5
          (ExpiredCache.run 1000 [ExpiredCache.OpSet 1%nat 4; ExpiredCache.Advance 900]
             (ExpiredCache.create 0))))
  = Some 5.
Proof.
  destruct (cache_entry_lives_for_ttl 1000 0
              [ExpiredCache.OpSet 1%nat 4; ExpiredCache.Advance 900]
              [ExpiredCache.Advance 400; ExpiredCache.OpSet 2%nat 7;
               ExpiredCache.Advance 400; ExpiredCache.Fire 1%nat]
              1%nat 5) as (_ & Hlive & _); [reflexivity|reflexivity|].
  exact Hlive.
Defined.

(** X26: [delete] and [clear] cancel the timers.  In any reachable state
    [delete(key)] returns whether the key was cached, removes it, leaves
    no pending timer for it and leaves the other keys as they were;
    [clear()] removes every key and leaves no timer pending at all. *)
Theorem cache_delete_and_clear `{Countable K} {V : Type} (ttl t0 : Z)
    (tr : list (ExpiredCache.event K V)) (key : K) :
  let st := ExpiredCache.run ttl tr (ExpiredCache.create t0) in
  let deleted := ExpiredCache.delete_ key st in
  deleted.1 = ExpiredCache.has key st
  /\ ExpiredCache.get key deleted.2 = None
  /\ (forall id due,
        Timers.pending (ExpiredCache.host deleted.2) !! id <> Some (due, key))
  /\ (forall k, k <> key ->
        ExpiredCache.get k deleted.2 = ExpiredCache.get k st)
  /\ (forall k, ExpiredCache.get k (ExpiredCache.clear st) = None)
  /\ Timers.pending (ExpiredCache.host (ExpiredCache.clear st)) = ∅.
Proof.
  intros st deleted.
  assert (cache_inv st) as Hinv
    by apply (cache_inv_run ttl tr), cache_inv_create.
  assert (cache_inv deleted.2) as (I1 & _ & I3 & _)
    by apply (cache_inv_step ttl st (ExpiredCache.OpDelete key) Hinv).
  assert (ExpiredCache.get key deleted.2 = None) as Hgone.
  { subst deleted. unfold ExpiredCache.delete_, ExpiredCache.get. simpl.
    destruct (ExpiredCache.timers st !! key); simpl; apply lookup_delete_eq. }
  split; [reflexivity|]. split; [exact Hgone|]. split; [|split; [|split]].
  - intros id due Hp. apply I3 in Hp.
    assert (is_Some (ExpiredCache.cache deleted.2 !! key)) as [v Hv]
      by (apply I1; eauto).
    unfold ExpiredCache.get in Hgone. congruence.
  - intros k Hk. subst deleted. unfold ExpiredCache.delete_, ExpiredCache.get.
    simpl. destruct (ExpiredCache.timers st !! key); simpl;
      apply lookup_delete_ne; congruence.
  - intros k. unfold ExpiredCache.get, ExpiredCache.clear. simpl.
    apply lookup_empty.
  - apply map_empty. intros id. apply clear_pending. exact Hinv.
Qed.

(** * The resource preloader *)

Section PreloaderFacts.
Import ResourcePreloader.

Lemma preloader_inv_append url l st :
  href l = url -> preloader_inv st -> preloader_inv (append url l st).
Proof.
  intros Hurl [Hnd Hset]. unfold append.
  destruct (decide (url ∈ preloadedResources st)) as [Hin|Hnin];
    [split; assumption|].
  split; simpl.
  - rewrite fmap_app. apply NoDup_app. split; [assumption|]. split.
    + intros u Hu Hu'. simpl in Hu'. apply list_elem_of_singleton in Hu'.
      subst u. apply Hnin, Hset. rewrite <- Hurl. exact Hu.
    + simpl. apply NoDup_singleton.
  - intros u. rewrite fmap_app, elem_of_app, elem_of_union, elem_of_singleton.
    simpl. rewrite list_elem_of_singleton, Hurl, Hset. tauto.
Qed.

Lemma preloader_inv_serve st r : preloader_inv st -> preloader_inv (serve st r).
Proof.
  destruct r; simpl; apply preloader_inv_append; reflexivity.
Qed.

Lemma serve_records st r : url_of r ∈ preloadedResources (serve st r).
Proof.
  destruct r; simpl; unfold preloadImage, preloadFont, preloadScript,
    prefetchResource, append;
    (case_decide; [assumption|simpl; apply elem_of_union_l, elem_of_singleton;
                              reflexivity]).
Qed.

Lemma serve_keeps st r url :
  url ∈ preloadedResources st -> url ∈ preloadedResources (serve st r).
Proof.
  intros Hin.
  destruct r; simpl; unfold preloadImage, preloadFont, preloadScript,
    prefetchResource, append;
    (case_decide; [assumption|simpl; apply elem_of_union_r; assumption]).
Qed.

End PreloaderFacts.

(** X27: the preloader adds one link per URL, whatever the kind.  After
    any sequence of [preloadImage], [preloadFont], [preloadScript] and
    [prefetchResource] calls, the links in the document head have
    pairwise distinct URLs, which are exactly the recorded ones, and every
    requested URL is among them; a request for a URL already recorded, of
    the same or of another kind, changes nothing. *)
Theorem preloader_links_once (rs : list ResourcePreloader.request) :
  let st := ResourcePreloader.run rs ResourcePreloader.create in
  NoDup (ResourcePreloader.href <$> ResourcePreloader.head st)
  /\ (forall url, url ∈ ResourcePreloader.preloadedResources st
                  <-> url ∈ ResourcePreloader.href <$> ResourcePreloader.head st)
  /\ (forall r, r ∈ rs ->
        ResourcePreloader.url_of r ∈ ResourcePreloader.preloadedResources st)
  /\ (forall r, ResourcePreloader.url_of r
                ∈ ResourcePreloader.preloadedResources st ->
        ResourcePreloader.serve st r = st).
Proof.
  intros st.
  assert (forall rs0 st0, preloader_inv st0 ->
            preloader_inv (ResourcePreloader.run rs0 st0)) as Hrun.
  { induction rs0 as [|r rs0 IH]; intros st0 H0; [assumption|].
    simpl. apply IH, preloader_inv_serve, H0. }
  assert (forall rs0 st0 url, url ∈ ResourcePreloader.preloadedResources st0 ->
            url ∈ ResourcePreloader.preloadedResources
                    (ResourcePreloader.run rs0 st0)) as Hkeep.
  { induction rs0 as [|r rs0 IH]; intros st0 url H0; [assumption|].
    simpl. apply IH, serve_keeps, H0. }
  assert (forall rs0 st0 r, r ∈ rs0 ->
            ResourcePreloader.url_of r
            ∈ ResourcePreloader.preloadedResources
                (ResourcePreloader.run rs0 st0)) as Hreq.
  { induction rs0 as [|r0 rs0 IH]; intros st0 r Hr;
      [apply elem_of_nil in Hr; contradiction|].
    simpl. apply elem_of_cons in Hr as [->|Hr].
    - apply Hkeep, serve_records.
    - apply IH. assumption. }
  destruct (Hrun rs ResourcePreloader.create) as [Hnd Hset].
  { split; simpl; [constructor|]. intros url. split; intros Hin.
    - apply elem_of_empty in Hin. contradiction.
    - apply elem_of_nil in Hin. contradiction. }
  split; [exact Hnd|]. split; [exact Hset|]. split.
  - intros r Hr. apply Hreq. exact Hr.
  - intros r Hin.
    destruct r; simpl in *;
      unfold ResourcePreloader.preloadImage, ResourcePreloader.preloadFont,
        ResourcePreloader.preloadScript, ResourcePreloader.prefetchResource,
        ResourcePreloader.append;
      (case_decide; [reflexivity|contradiction]).
Qed.

(** * The animation-frame loop *)

Section AnimationFrameFacts.
Import AnimationFrame.

Lemma iter_tick_running (n : nat) (st : state) :
  isRunning st = true ->
  Nat.iter n tick st
  = State (callbacks st) true (n + scheduled st)
          (invoked st ++ concat (replicate n (callbacks st))).
Proof.
  intros Hrun. induction n as [|n IH]; simpl.
  - rewrite app_nil_r. destruct st; simpl in *. subst. reflexivity.
  - rewrite IH. unfold tick. simpl. f_equal.
    rewrite <- app_assoc. f_equal.
    clear. induction n as [|n IH]; simpl.
    + rewrite app_nil_r. reflexivity.
    + rewrite <- app_assoc, IH. reflexivity.
Qed.

Lemma iter_tick_stopped (n : nat) (st : state) :
  isRunning st = false -> Nat.iter n tick st = st.
Proof.
  intros Hstop. induction n as [|n IH]; simpl; [reflexivity|].
  rewrite IH. unfold tick. rewrite Hstop. reflexivity.
Qed.

Lemma loop_inv_step st e : loop_inv st -> loop_inv (step st e).
Proof.
  intros [Hiff Hsched]. destruct e as [cb|cb|]; simpl.
  - unfold add. simpl. destruct (isRunning st) eqn:E; simpl.
    + split; simpl; [|auto]. split; [|auto]. intros _ Hnil.
      apply app_eq_nil in Hnil as [_ ?]. discriminate.
    + unfold start, tick. simpl. split; simpl; [|lia].
      split; [|auto]. intros _ Hnil.
      apply app_eq_nil in Hnil as [_ ?]. discriminate.
  - unfold remove. simpl.
    destruct (remove_first cb (callbacks st)) as [|x l] eqn:E; simpl.
    + split; simpl; [|discriminate]. split; [discriminate|congruence].
    + destruct (isRunning st) eqn:Er.
      * split; simpl; [|auto]. split; [discriminate|auto].
      * assert (callbacks st = []) as Hnil.
        { destruct (callbacks st); [reflexivity|].
          exfalso. assert (false = true) by (apply Hiff; discriminate).
          discriminate. }
        rewrite Hnil in E. discriminate.
  - unfold frame. destruct (isRunning st) eqn:E.
    + rewrite iter_tick_running by reflexivity. simpl.
      split; simpl; [|intros _; specialize (Hsched eq_refl); lia].
      split; [intros _; apply Hiff; reflexivity|auto].
    + rewrite iter_tick_stopped by reflexivity. simpl.
      split; simpl; [|discriminate]. rewrite <- Hiff. reflexivity.
Qed.

End AnimationFrameFacts.

(** X28: the animation loop is alive exactly while callbacks are
    registered.  After any sequence of [add], [remove] and frames,
    [isRunning] holds if and only if the callback list is not empty, and
    while it holds at least one tick is scheduled for the next frame. *)
Theorem animation_loop_runs_while_registered
    (tr : list AnimationFrame.event) :
  let st := AnimationFrame.run tr AnimationFrame.create in
  (AnimationFrame.isRunning st = true <-> AnimationFrame.callbacks st <> [])
  /\ (AnimationFrame.isRunning st = true ->
      (1 <= AnimationFrame.scheduled st)%nat).
Proof.
  intros st. subst st.
  assert (loop_inv AnimationFrame.create) as H0.
  { split; simpl; [|discriminate]. split; [discriminate|congruence]. }
  revert H0. generalize AnimationFrame.create.
  induction tr as [|e tr IH]; intros st0 H0; [exact H0|].
  simpl. apply IH, loop_inv_step, H0.
Qed.

(** X29: restarting the loop before the next frame stacks ticks.  A frame
    of a running loop invokes the whole callback list once per scheduled
    tick and schedules as many ticks again; and after [k] rounds of
    adding and removing a callback with no frame in between, adding it
    once more leaves [k + 1] ticks scheduled, so every following frame
    invokes it [k + 1] times. *)
Theorem animation_restart_stacks_ticks (k : nat) (callback : nat) :
  (forall st,
     AnimationFrame.isRunning st = true ->
     AnimationFrame.frame st
     = AnimationFrame.State (AnimationFrame.callbacks st) true
         (AnimationFrame.scheduled st)
         (AnimationFrame.invoked st
          ++ concat (replicate (AnimationFrame.scheduled st)
                               (AnimationFrame.callbacks st))))
  /\ let st :=
       AnimationFrame.run
         (concat (replicate k [AnimationFrame.Add callback;
                               AnimationFrame.Remove callback])
          ++ [AnimationFrame.Add callback])
         AnimationFrame.create in
     AnimationFrame.callbacks st = [callback]
     /\ AnimationFrame.isRunning st = true
     /\ AnimationFrame.scheduled st = S k
     /\ AnimationFrame.invoked (AnimationFrame.frame st)
        = AnimationFrame.invoked st ++ replicate (S k) callback.
Proof.
  assert (forall st,
            AnimationFrame.isRunning st = true ->
            AnimationFrame.frame st
            = AnimationFrame.State (AnimationFrame.callbacks st) true
                (AnimationFrame.scheduled st)
                (AnimationFrame.invoked st
                 ++ concat (replicate (AnimationFrame.scheduled st)
                                      (AnimationFrame.callbacks st)))) as Hframe.
  { intros st Hrun. unfold AnimationFrame.frame.
    rewrite iter_tick_running by exact Hrun. simpl.
    rewrite Nat.add_0_r. reflexivity. }
  split; [exact Hframe|].
  assert (forall n s log,
            foldl AnimationFrame.step (AnimationFrame.State [] false s log)
              (concat (replicate n [AnimationFrame.Add callback;
                                    AnimationFrame.Remove callback]))
            = AnimationFrame.State [] false (n + s)
                (log ++ replicate n callback)) as Hrounds.
  { induction n as [|n IH]; intros s log.
    - simpl. rewrite app_nil_r. reflexivity.
    - cbn [replicate concat app foldl AnimationFrame.step].
      unfold AnimationFrame.add, AnimationFrame.remove. simpl.
      rewrite decide_True by reflexivity. simpl.
      unfold AnimationFrame.stop. simpl.
      rewrite IH. f_equal; [lia|].
      rewrite <- app_assoc. reflexivity. }
  intros st. subst st. unfold AnimationFrame.run. rewrite foldl_app.
  unfold AnimationFrame.create. rewrite Hrounds. simpl.
  unfold AnimationFrame.add. simpl.
  split; [reflexivity|]. split; [reflexivity|]. split; [lia|].
  rewrite Hframe by reflexivity. simpl. f_equal.
  rewrite Nat.add_0_r. clear.
  induction k as [|k IH]; simpl in *; [reflexivity|].
  f_equal. exact IH.
Qed.

(** * Infinite loading on top of the list hook *)

Lemma range_of_empty {Item} (o : options Item) (scroll : Z) (hs : gmap nat Z) :
  items o = [] -> 0 <= overscan o ->
  visibleRange o scroll (itemHeights o hs) = Range 0 (-1).
Proof.
  intros Hnil Hov. unfold visibleRange.
  assert (itemHeights o hs = []) as ->.
  { apply length_zero_iff_nil. rewrite itemHeights_length, Hnil. reflexivity. }
  rewrite Hnil. simpl. f_equal. lia.
Qed.

(** X30: the load-more effect against the window of the list hook.  The
    distance [items.length - visibleRange.end] is always at least 1, so
    with a [loadMoreThreshold] below 1 the callback is never invoked,
    whatever is rendered; and on an empty list (non-negative overscan) the
    distance is exactly 1, so with a threshold of at least 1, more pages
    and no fetch in flight, the first render invokes the callback. *)
Theorem load_more_distance_is_positive {Item} (o : options Item) (st : state)
    (hasNext fetching : bool) (threshold : Z) (fetch : option nat)
    (calls : list nat) :
  let d := Infinite.deps_of o st hasNext fetching threshold fetch in
  1 <= Infinite.items_length d - Infinite.visibleRange_end d
  /\ (threshold < 1 -> Infinite.effect d calls = calls)
  /\ (items o = [] -> 0 <= overscan o -> 1 <= threshold ->
      forall f, hasNext = true -> fetching = false -> fetch = Some f ->
      Infinite.renders None [d] [] = [f]).
Proof.
  intros d.
  assert (1 <= Infinite.items_length d - Infinite.visibleRange_end d) as Hdist.
  { subst d. unfold Infinite.deps_of. simpl. lia. }
  split; [exact Hdist|]. split.
  - intros Hthr. unfold Infinite.effect, Infinite.shouldLoadMore.
    destruct (Z.leb_spec (Infinite.items_length d - Infinite.visibleRange_end d)
                (Infinite.loadMoreThreshold d)) as [Hle|_].
    + subst d. unfold Infinite.deps_of in Hle. simpl in Hle, Hdist. lia.
    + rewrite andb_false_r. reflexivity.
  - intros Hnil Hov Hthr f -> -> ->.
    simpl. unfold Infinite.commit. rewrite decide_False by discriminate.
    unfold Infinite.effect, Infinite.shouldLoadMore. subst d.
    unfold Infinite.deps_of, render. cbn [view_range].
    rewrite (range_of_empty o _ _ Hnil Hov), Hnil. simpl.
    change (Z.of_nat 0 - -1) with 1.
    destruct (Z.leb_spec 1 threshold); [reflexivity|lia].
Qed.
